(** * repl-trace-checker: merging replica-set logs into a trace of snapshots

    A shallow embedding of [parse_log.py] and [repl-trace-checker.py].

    - A log file is a [Stream]: the [name] of the open file and its lines.
    - Generators are step functions on an explicit generator state, so that
      the laziness of [gen] and of [heapq.merge] is visible: a line is only
      decoded when the consumer asks for the next event of that source.
    - Exceptions and [sys.exit] are values of [Failure].
    - The two mapper objects are threaded explicitly through
      [parse_log_line]; the store of Python objects is explicit where
      aliasing matters ([update_state_heap]).

    Output written with [print] or [logging] is not modelled. *)

From Stdlib Require Import ZArith String List Lia.
From Stdlib Require OrderedTypeEx.
From stdpp Require Import gmap strings list pretty sorting.

Open Scope Z_scope.
Open Scope string_scope.
Open Scope list_scope.

(** ** Failures *)

(** The ways a run stops early.  Each constructor names the Python
    exception (or exit) and the statement raising it. *)
Inductive Failure :=
| ValueError            (* strptime rejects the matched timestamp text *)
| InvalidJSON           (* JSONDecodeError in gen: message, sys.exit(2) *)
| TypeError             (* '<' between two dict payloads *)
| IndexConflict         (* set_index: optime already at another index *)
| UnknownOplogReference (* get_index: optime never registered *)
| UnknownState          (* ServerState[label]: no such member *)
| IndexError.           (* list assignment index out of range *)

#[global] Instance Failure_eq_dec : EqDecision Failure.
Proof. solve_decision. Defined.

(** ** Decoded payload of a trace line *)

(** A bson timestamp [Timestamp(t, i)], the key of the oplog index mapper. *)
Abbreviation Optime := (Z * Z)%type.

(** [trace['state']]: the part of the payload specific to RaftMongo.tla.
    Each element of [rm_log] is an entry [{ts: ..., t: ...}]. *)
Record RaftMongo := {
  rm_log : list (Optime * Z);
  rm_commitPoint_ts : Optime;
  rm_commitPoint_t : Z;
  rm_term : Z;
  rm_serverState : string
}.

(** The decoded JSON object of one line, for payloads that have every key
    [parse_log_line] reads.  [tr_port] is
    [int(trace['host'].split(':')[1])]. *)
Record TraceObj := {
  tr_action : string;
  tr_port : Z;
  tr_state : RaftMongo
}.

#[global] Instance RaftMongo_eq_dec : EqDecision RaftMongo.
Proof. solve_decision. Defined.

#[global] Instance TraceObj_eq_dec : EqDecision TraceObj.
Proof. solve_decision. Defined.

(** ** What the embedding takes as given

    The regular expression engine, [strptime], the JSON decoder and the
    members of the [ServerState] enumeration (declared in
    [system_state.py]) are parameters.

    - [line_pat_match line] is [line_pat.match(line)]: [None] when the line
      is not a trace line, otherwise the groups [timestamp] and [json].
    - [parse_log_timestamp] is the function of that name; the result is the
      instant of the aware datetime, which is what [==] and [<] on aware
      datetimes compare.
    - [json_loads] is [json_util.loads]; [None] is [JSONDecodeError].
    - [ServerState_getitem label] is [ServerState[label]]. *)
Class Collaborators := {
  ServerState : Type;
  Follower : ServerState;
  ServerState_getitem : string -> option ServerState;
  line_pat_match : string -> option (string * string);
  parse_log_timestamp : string -> option Z;
  json_loads : string -> option TraceObj
}.

(** A small concrete instance, used to run the definitions on examples:
    a trace line is a digit (the timestamp) followed by the payload text. *)
Inductive SampleState := SFollower | SPrimary.

Definition sample_getitem (label : string) : option SampleState :=
  if decide (label = "Follower") then Some SFollower
  else if decide (label = "Primary") then Some SPrimary
  else None.

Definition sample_match (line : string) : option (string * string) :=
  match line with
  | String c rest =>
      if ((48 <=? Ascii.nat_of_ascii c) && (Ascii.nat_of_ascii c <? 58))%nat
      then Some (String c "", rest) else None
  | EmptyString => None
  end.

Definition sample_timestamp (ts : string) : option Z :=
  match ts with
  | String c "" => Some (Z.of_nat (Ascii.nat_of_ascii c) - 48)
  | _ => None
  end.

Definition sample_payload (port : Z) (log : list (Optime * Z))
    (cp : Optime) : TraceObj :=
  {| tr_action := "BecomePrimaryByMagic";
     tr_port := port;
     tr_state := {| rm_log := log;
                    rm_commitPoint_ts := cp;
                    rm_commitPoint_t := -1;
                    rm_term := -1;
                    rm_serverState := "Primary" |} |}.

Definition sample_loads (json : string) : option TraceObj :=
  if decide (json = "{a}") then Some (sample_payload 27017 [((7, 1), 1)] (7, 1))
  else if decide (json = "{b}") then Some (sample_payload 27018 [] (7, 1))
  else if decide (json = "{c}") then Some (sample_payload 27019 [((7, 1), 1)] (7, 1))
  else None.

Definition sample : Collaborators :=
  {| ServerState := SampleState;
     Follower := SFollower;
     ServerState_getitem := sample_getitem;
     line_pat_match := sample_match;
     parse_log_timestamp := sample_timestamp;
     json_loads := sample_loads |}.

(** ** parse_log.py: LogLine *)

Record LogLine := {
  timestamp : Z;
  location : string;
  line : string;
  obj : TraceObj
}.

#[global] Instance LogLine_eq_dec : EqDecision LogLine.
Proof. solve_decision. Defined.

(** [a < b] for the dataclass with [order=True]: the tuples of fields
    [(timestamp, location, line, obj)] are compared, that is the first
    field at which they differ decides.  When that field is [obj] the
    comparison of two dicts raises. *)
Definition LogLine_lt (a b : LogLine) : Failure + bool :=
  if negb (bool_decide (timestamp a = timestamp b))
  then inr (timestamp a <? timestamp b)%Z
  else if negb (bool_decide (location a = location b))
  then inr (String.ltb (location a) (location b))
  else if negb (bool_decide (line a = line b))
  then inr (String.ltb (line a) (line b))
  else if negb (bool_decide (obj a = obj b))
  then inl TypeError
  else inr false.

(** ** parse_log.py: the generator [gen] of merge_log_streams *)

(** An open log file: [stream.name] and the lines iterating it gives. *)
Record Stream := {
  name : string;
  lines : list string
}.

(** A suspended [gen(stream)]: the local [line_number] and the lines of
    the stream not read yet. *)
Record Gen := {
  g_name : string;
  line_number : nat;
  g_rest : list string
}.

(** What [next()] on a generator does. *)
Inductive Next (G : Type) :=
| Yield (v : LogLine) (g : G)
| StopIteration
| Raise (f : Failure).
Arguments Yield {G} v g.
Arguments StopIteration {G}.
Arguments Raise {G} f.

Section Generators.
Context `{Collaborators}.

(** The body of [gen] from the top of the [for] loop to the next [yield]:
    lines that do not match are passed over with [continue] after the
    counter has been incremented. *)
Fixpoint gen_loop (nm : string) (n : nat) (rest : list string) : Next Gen :=
  match rest with
  | [] => StopIteration
  | l :: rest' =>
      let n := S n in
      match line_pat_match l with
      | None => gen_loop nm n rest'
      | Some (ts, json) =>
          match parse_log_timestamp ts with
          | None => Raise ValueError
          | Some t =>
              match json_loads json with
              | None => Raise InvalidJSON
              | Some o =>
                  Yield {| timestamp := t;
                           location := nm ++ ":" ++ pretty n;
                           line := l;
                           obj := o |}
                        {| g_name := nm; line_number := n; g_rest := rest' |}
              end
          end
      end
  end.

Definition gen_next (g : Gen) : Next Gen :=
  gen_loop (g_name g) (line_number g) (g_rest g).

(** [gen(stream)]: the generator before its first [next()]. *)
Definition gen (s : Stream) : Gen :=
  {| g_name := name s; line_number := 0; g_rest := lines s |}.

End Generators.

(** ** heapq.merge over the generators

    [heapq.merge] keeps one list [[value, order, next]] per live source in
    a binary heap and compares these lists with [<].  The heap is
    modelled as the bag of its entries, from which the least is taken:
    [entry_lt] is a strict total order on entries of distinct [order]
    (lemmas [entry_lt_decides], [entry_before_total] and
    [entry_before_trans] below), so the root of the heap is the one least
    entry whatever the layout of the heap. *)

Record Entry := {
  value : LogLine;
  order : nat;
  next : Gen
}.

(** [<] on [[value, order, next]]: the first position at which the two
    lists differ (by [==]) decides.  Two entries of one heap never have
    the same [order]; were it so, the bound methods would be compared. *)
Definition entry_lt (a b : Entry) : Failure + bool :=
  if negb (bool_decide (value a = value b))
  then LogLine_lt (value a) (value b)
  else if negb (bool_decide (order a = order b))
  then inr (order a <? order b)%nat
  else inl TypeError.

(** The least entry of [e :: h] and the others. *)
Fixpoint select_min (e : Entry) (h : list Entry)
  : Failure + (Entry * list Entry) :=
  match h with
  | [] => inr (e, [])
  | x :: h' =>
      match entry_lt x e with
      | inl f => inl f
      | inr true =>
          match select_min x h' with
          | inl f => inl f
          | inr (m, others) => inr (m, e :: others)
          end
      | inr false =>
          match select_min e h' with
          | inl f => inl f
          | inr (m, others) => inr (m, x :: others)
          end
      end
  end.

(** How an iteration ends: every source is exhausted, or an exception
    (or exit) leaves the loop.  [OutOfFuel] belongs to the embedding only
    and is never the outcome of [heapq_merge] (lemma
    [heapq_merge_spec]). *)
Inductive Outcome :=
| Exhausted
| Raised (f : Failure)
| OutOfFuel.

#[global] Instance Outcome_eq_dec : EqDecision Outcome.
Proof. solve_decision. Defined.

(** The number of steps the entries of a heap can still take. *)
Definition heap_size (h : list Entry) : nat :=
  sum_list_with (fun e => S (length (g_rest (next e)))) h.

(** The order [entry_lt] decides, written out: by timestamp, then by
    location, then by the text of the line, then by the position of the
    source among the arguments of [heapq.merge]. *)
Definition entry_before (a b : Entry) : Prop :=
  (timestamp (value a) < timestamp (value b))%Z ∨
  timestamp (value a) = timestamp (value b) ∧
  (OrderedTypeEx.String_as_OT.lt (location (value a)) (location (value b)) ∨
   location (value a) = location (value b) ∧
   (OrderedTypeEx.String_as_OT.lt (line (value a)) (line (value b)) ∨
    line (value a) = line (value b) ∧ (order a < order b)%nat)).

Section Merge.
Context `{Collaborators}.

(** The first loop of [heapq.merge]: the first event of every source, in
    the order of the sources; a source with no event is left out. *)
Fixpoint merge_init (n : nat) (its : list Gen) : Failure + list Entry :=
  match its with
  | [] => inr []
  | it :: its' =>
      match gen_next it with
      | Raise f => inl f
      | StopIteration => merge_init (S n) its'
      | Yield v g =>
          match merge_init (S n) its' with
          | inl f => inl f
          | inr h => inr ({| value := v; order := n; next := g |} :: h)
          end
      end
  end.

(** The main loop of [heapq.merge]: yield the value of the least entry,
    then advance its source and put the entry back, or drop it when the
    source is exhausted.  Each yielded value is paired with the [order]
    of its source; [merge_log_streams] forgets the pairing.  With one
    entry left no comparison is made, as in the last lines of
    [heapq.merge]. *)
Fixpoint merge_loop (fuel : nat) (h : list Entry)
  : list (LogLine * nat) * Outcome :=
  match h with
  | [] => ([], Exhausted)
  | e :: h' =>
      match fuel with
      | O => ([], OutOfFuel)
      | S fuel =>
          match select_min e h' with
          | inl f => ([], Raised f)
          | inr (s, others) =>
              let '(out, r) :=
                match gen_next (next s) with
                | Yield v g =>
                    merge_loop fuel
                      ({| value := v; order := order s; next := g |} :: others)
                | StopIteration => merge_loop fuel others
                | Raise f => ([], Raised f)
                end in
              ((value s, order s) :: out, r)
          end
      end
  end.

Definition heapq_merge (its : list Gen) : list (LogLine * nat) * Outcome :=
  match merge_init 0 its with
  | inl f => ([], Raised f)
  | inr h => merge_loop (heap_size h) h
  end.

(** [merge_log_streams(streams)], iterated to its end: the values yielded
    and how the iteration ended. *)
Definition merge_log_streams (streams : list Stream)
  : list LogLine * Outcome :=
  let '(out, r) := heapq_merge (gen <$> streams) in (out.*1, r).

(** All that a generator yields before it stops or raises. *)
Fixpoint drain_loop (nm : string) (n : nat) (rest : list string)
  : list LogLine * Outcome :=
  match rest with
  | [] => ([], Exhausted)
  | l :: rest' =>
      match line_pat_match l with
      | None => drain_loop nm (S n) rest'
      | Some (ts, json) =>
          match parse_log_timestamp ts with
          | None => ([], Raised ValueError)
          | Some t =>
              match json_loads json with
              | None => ([], Raised InvalidJSON)
              | Some o =>
                  let '(out, r) := drain_loop nm (S n) rest' in
                  ({| timestamp := t;
                      location := nm ++ ":" ++ pretty (S n);
                      line := l;
                      obj := o |} :: out, r)
              end
          end
      end
  end.

Definition drain (g : Gen) : list LogLine * Outcome :=
  drain_loop (g_name g) (line_number g) (g_rest g).

(** A line object as [gen] builds it: its timestamp and its payload are
    those decoded from its text. *)
Definition decoded (v : LogLine) : Prop :=
  ∃ ts json,
    line_pat_match (line v) = Some (ts, json) ∧
    parse_log_timestamp ts = Some (timestamp v) ∧
    json_loads json = Some (obj v).

End Merge.

(** The order a sequence of lines sorted by timestamp is in. *)
Definition by_timestamp (a b : LogLine) : Prop :=
  (timestamp a <= timestamp b)%Z.

(** The values of a merged sequence that come from source [i], in the
    order in which they are yielded. *)
Definition from_source (i : nat) (out : list (LogLine * nat))
  : list LogLine :=
  (filter (fun p => p.2 = i) out).*1.

(** ** Sequencing of fallible steps *)

Definition bind {A B : Type} (m : Failure + A) (k : A -> Failure + B)
  : Failure + B :=
  match m with
  | inl f => inl f
  | inr a => k a
  end.

Notation "'letE' p := m 'in' k" := (bind m (fun p => k))
  (at level 10, p pattern, m at level 100, k at level 200,
   format "'[v' 'letE'  p  :=  m  'in' '/' k ']'").

(** ** system_state.py: values *)

Module OplogEntry.
Record t := { term : Z }.
End OplogEntry.

(** A commit point: a term and an index into the oplog.  The initial
    state of [main] writes it as the dict [{'term': -1, 'index': 0}]. *)
Module CommitPoint.
Record t := { term : Z; index : nat }.
End CommitPoint.

(** ** system_state.py: the mappers *)

Module PortMapper.
(** Modelled from the spec: class [PortMapper] of [system_state.py],
    which is not among the source files.  "First call with a given port
    allocates the next unused integer id (starting at 0) and remembers
    the association; subsequent calls with the same port return the
    same id." *)
Record t := {
  ids : gmap Z nat;
  next_id : nat
}.

(** [PortMapper()] *)
Definition new : t := {| ids := ∅; next_id := 0 |}.

Definition get_server_id (port : Z) (pm : t) : nat * t :=
  match ids pm !! port with
  | Some id => (id, pm)
  | None =>
      (next_id pm,
       {| ids := <[port := next_id pm]> (ids pm);
          next_id := S (next_id pm) |})
  end.

(** Calls of [get_server_id] one after the other. *)
Fixpoint get_server_ids (ports : list Z) (pm : t) : list nat * t :=
  match ports with
  | [] => ([], pm)
  | p :: ports' =>
      let '(id, pm1) := get_server_id p pm in
      let '(ids, pm2) := get_server_ids ports' pm1 in
      (id :: ids, pm2)
  end.
End PortMapper.

Module OplogIndexMapper.
(** Modelled from the spec: class [OplogIndexMapper] of
    [system_state.py], which is not among the source files.
    "[set_index(optime, index)] records a timestamp→index mapping if not
    already present (idempotent — setting the same optime to the same
    index again is a no-op; setting it to a different index is a logic
    error and must fail loudly [...]).  [get_index(optime) -> index]
    fails with a NotFound condition if the optime was never
    registered."  The methods receive an optime and nothing that
    identifies a server, as they are called in [parse_log_line]. *)
Abbreviation t := (gmap Optime nat).

(** [OplogIndexMapper()] *)
Definition new : t := ∅.

Definition set_index (ts : Optime) (index : nat) (m : t) : Failure + t :=
  match m !! ts with
  | None => inr (<[ts := index]> m)
  | Some j => if decide (j = index) then inr m else inl IndexConflict
  end.

Definition get_index (ts : Optime) (m : t) : Failure + nat :=
  match m !! ts with
  | Some j => inr j
  | None => inl UnknownOplogReference
  end.
End OplogIndexMapper.

(** ** parse_log.py: LogEvent and parse_log_line *)

Module LogEvent.
Record t `{Collaborators} := {
  timestamp : Z;
  location : string;
  line : string;
  action : string;
  server_id : nat;
  term : Z;
  state : ServerState;
  commitPoint : CommitPoint.t;
  log : list OplogEntry.t
}.
End LogEvent.

(** What the implementation calls -1, the spec calls 0. *)
Definition fixup_term (term : Z) : Z :=
  if decide (term = -1) then 0 else term.

(** [tuple(generate_oplog_entries())]: the walk over
    [enumerate(raft_mongo['log'])], from position [index] on. *)
Fixpoint generate_oplog_entries (index : nat) (log : list (Optime * Z))
    (oplog_index_mapper : OplogIndexMapper.t)
  : Failure + (list OplogEntry.t * OplogIndexMapper.t) :=
  match log with
  | [] => inr ([], oplog_index_mapper)
  | (ts, t) :: log' =>
      letE m1 := OplogIndexMapper.set_index ts index oplog_index_mapper in
      letE (entries, m2) := generate_oplog_entries (S index) log' m1 in
      inr ({| OplogEntry.term := t |} :: entries, m2)
  end.

Section Translate.
Context `{Collaborators}.

(** [parse_log_line(log_line, port_mapper, oplog_index_mapper)]: the event
    and the two mappers as the call leaves them.  The steps are in the
    order in which Python evaluates them: the walk over the log, the
    commit point, and then the arguments of [LogEvent(...)], among them
    [get_server_id] before [ServerState[...]].  The [except] clause prints
    the line and raises the exception again. *)
Definition parse_log_line (log_line : LogLine)
    (port_mapper : PortMapper.t) (oplog_index_mapper : OplogIndexMapper.t)
  : Failure + (LogEvent.t * PortMapper.t * OplogIndexMapper.t) :=
  let trace := obj log_line in
  let raft_mongo := tr_state trace in
  let port := tr_port trace in
  letE (log, m1) := generate_oplog_entries 0 (rm_log raft_mongo)
                     oplog_index_mapper in
  letE index := OplogIndexMapper.get_index (rm_commitPoint_ts raft_mongo) m1 in
  let commitPoint :=
    {| CommitPoint.term := fixup_term (rm_commitPoint_t raft_mongo);
       CommitPoint.index := index |} in
  let '(server_id, pm1) := PortMapper.get_server_id port port_mapper in
  match ServerState_getitem (rm_serverState raft_mongo) with
  | None => inl UnknownState
  | Some state =>
      inr ({| LogEvent.timestamp := timestamp log_line;
              LogEvent.location := location log_line;
              LogEvent.line := line log_line;
              LogEvent.action := tr_action trace;
              LogEvent.server_id := server_id;
              LogEvent.term := fixup_term (rm_term raft_mongo);
              LogEvent.state := state;
              LogEvent.commitPoint := commitPoint;
              LogEvent.log := log |}, pm1, m1)
  end.

End Translate.

(** ** repl-trace-checker.py: SystemState and update_state *)

Module SystemState.
(** The per-server fields [log], [state] and [commitPoint] are tuples
    indexed by server id. *)
Record t `{Collaborators} := {
  n_servers : nat;
  action : string;
  globalCurrentTerm : Z;
  log : list (list OplogEntry.t);
  state : list ServerState;
  commitPoint : list CommitPoint.t;
  serverLogLocation : string
}.
End SystemState.

(** [l[i] = x] on a Python list, for [i] not negative. *)
Definition setitem {A : Type} (l : list A) (i : nat) (x : A)
  : Failure + list A :=
  if decide (i < length l)%nat then inr (<[i := x]> l) else inl IndexError.

Section Accumulate.
Context `{Collaborators}.

(** [update_state] on the values of the objects. *)
Definition update_state (current_state : SystemState.t)
    (log_event : LogEvent.t) : Failure + SystemState.t :=
  letE next_log :=
    setitem (SystemState.log current_state)
            (LogEvent.server_id log_event) (LogEvent.log log_event) in
  letE next_server_state :=
    setitem (SystemState.state current_state)
            (LogEvent.server_id log_event) (LogEvent.state log_event) in
  letE next_commit_point :=
    setitem (SystemState.commitPoint current_state)
            (LogEvent.server_id log_event)
            (LogEvent.commitPoint log_event) in
  inr {| SystemState.n_servers := SystemState.n_servers current_state;
         SystemState.action := LogEvent.action log_event;
         SystemState.globalCurrentTerm := LogEvent.term log_event;
         SystemState.log := next_log;
         SystemState.state := next_server_state;
         SystemState.commitPoint := next_commit_point;
         SystemState.serverLogLocation := LogEvent.location log_event |}.

(** *** update_state on a store of objects

    To say that [update_state] leaves its argument as it was, the objects
    are placed in a store: a snapshot is an object whose attributes [log],
    [state] and [commitPoint] refer to tuple objects, and
    [list(...)], [l[i] = x] and [tuple(...)] are operations on the
    store. *)

Abbreviation loc := positive.

(** An element of one of the three tuples. *)
Inductive Item :=
| ILog (l : list OplogEntry.t)
| IState (s : ServerState)
| ICommitPoint (c : CommitPoint.t).

Inductive PyObj :=
| PyTuple (items : list Item)
| PyList (items : list Item)
| PySystemState (n_servers : nat) (action : string) (globalCurrentTerm : Z)
    (log state commitPoint : loc) (serverLogLocation : string).

Abbreviation Store := (gmap loc PyObj).

(** A computation on the store that may raise. *)
Definition Heap (A : Type) : Type := Store -> Failure + (A * Store).

Definition hret {A : Type} (a : A) : Heap A := fun σ => inr (a, σ).

Definition hbind {A B : Type} (m : Heap A) (k : A -> Heap B) : Heap B :=
  fun σ => match m σ with
           | inl f => inl f
           | inr (a, σ') => k a σ'
           end.

(** A new object, at a location not in use. *)
Definition alloc (o : PyObj) : Heap loc :=
  fun σ => let l := fresh (dom σ) in inr (l, <[l := o]> σ).

(** The items of the tuple or list at [l]. *)
Definition items_at (l : loc) : Heap (list Item) :=
  fun σ => match σ !! l with
           | Some (PyTuple items) | Some (PyList items) => inr (items, σ)
           | _ => inl TypeError
           end.

(** [list(x)]: a new list with the items of [x]. *)
Definition py_list (l : loc) : Heap loc :=
  hbind (items_at l) (fun items => alloc (PyList items)).

(** [tuple(x)] for a list [x]: a new tuple with the items of [x]. *)
Definition py_tuple (l : loc) : Heap loc :=
  hbind (items_at l) (fun items => alloc (PyTuple items)).

(** [x[i] = v]: the list object at [l] is changed in place. *)
Definition py_setitem (l : loc) (i : nat) (v : Item) : Heap unit :=
  fun σ => match σ !! l with
           | Some (PyList items) =>
               if decide (i < length items)%nat
               then inr (tt, <[l := PyList (<[i := v]> items)]> σ)
               else inl IndexError
           | _ => inl TypeError
           end.

(** The attributes of the snapshot object at [l]. *)
Definition attributes (l : loc) : Heap PyObj :=
  fun σ => match σ !! l with
           | Some (PySystemState n a g lg st cp lo) =>
               inr (PySystemState n a g lg st cp lo, σ)
           | _ => inl TypeError
           end.

Notation "'letH' p := m 'in' k" := (hbind m (fun p => k))
  (at level 10, p pattern, m at level 100, k at level 200,
   format "'[v' 'letH'  p  :=  m  'in' '/' k ']'").

(** [update_state], statement by statement. *)
Definition update_state_heap (current_state : loc) (log_event : LogEvent.t)
  : Heap loc :=
  letH self := attributes current_state in
  match self with
  | PySystemState n_servers _ _ log state commitPoint _ =>
      letH next_log := py_list log in
      letH _ := py_setitem next_log (LogEvent.server_id log_event)
                  (ILog (LogEvent.log log_event)) in
      letH next_server_state := py_list state in
      letH _ := py_setitem next_server_state (LogEvent.server_id log_event)
                  (IState (LogEvent.state log_event)) in
      letH next_commit_point := py_list commitPoint in
      letH _ := py_setitem next_commit_point (LogEvent.server_id log_event)
                  (ICommitPoint (LogEvent.commitPoint log_event)) in
      letH log' := py_tuple next_log in
      letH state' := py_tuple next_server_state in
      letH commitPoint' := py_tuple next_commit_point in
      alloc (PySystemState n_servers (LogEvent.action log_event)
               (LogEvent.term log_event) log' state' commitPoint'
               (LogEvent.location log_event))
  | _ => fun _ => inl TypeError
  end.

(** The value of the snapshot object at [l]. *)
Definition as_log (x : Item) : option (list OplogEntry.t) :=
  match x with ILog l => Some l | _ => None end.
Definition as_state (x : Item) : option ServerState :=
  match x with IState s => Some s | _ => None end.
Definition as_commitPoint (x : Item) : option CommitPoint.t :=
  match x with ICommitPoint c => Some c | _ => None end.

Definition tuple_at (σ : Store) (l : loc) : option (list Item) :=
  match σ !! l with
  | Some (PyTuple items) => Some items
  | _ => None
  end.

Definition snapshot_at (σ : Store) (l : loc) : option SystemState.t :=
  match σ !! l with
  | Some (PySystemState n a g lg st cp lo) =>
      logs ← tuple_at σ lg ≫= mapM as_log;
      states ← tuple_at σ st ≫= mapM as_state;
      cps ← tuple_at σ cp ≫= mapM as_commitPoint;
      Some {| SystemState.n_servers := n;
              SystemState.action := a;
              SystemState.globalCurrentTerm := g;
              SystemState.log := logs;
              SystemState.state := states;
              SystemState.commitPoint := cps;
              SystemState.serverLogLocation := lo |}
  | _ => None
  end.

(** ** repl-trace-checker.py: main *)

(** The variables of [main] that the loop reads and writes. *)
Record Run := {
  trace : list SystemState.t;
  current_state : SystemState.t;
  port_mapper : PortMapper.t;
  oplog_index_mapper : OplogIndexMapper.t
}.

(** The state [main] starts from, for [n_servers] log files. *)
Definition initial_state (n_servers : nat) : SystemState.t :=
  {| SystemState.n_servers := n_servers;
     SystemState.action := "Init";
     SystemState.globalCurrentTerm := -1;
     SystemState.log := replicate n_servers [];
     SystemState.state := replicate n_servers Follower;
     SystemState.commitPoint :=
       replicate n_servers {| CommitPoint.term := -1; CommitPoint.index := 0 |};
     SystemState.serverLogLocation := "" |}.

Definition initial_run (n_servers : nat) : Run :=
  {| trace := [];
     current_state := initial_state n_servers;
     port_mapper := PortMapper.new;
     oplog_index_mapper := OplogIndexMapper.new |}.

(** The [for] loop of [main] over the merged lines.  The result is the
    variables when the loop is left, and how it is left: [Exhausted] when
    every line has been processed, [Raised f] when a line raises.  On a
    failure of [parse_log_line] the mappers are shown as they were before
    the call. *)
Fixpoint main_loop (merged : list LogLine) (r : Run) : Run * Outcome :=
  match merged with
  | [] => (r, Exhausted)
  | log_line :: merged' =>
      match parse_log_line log_line (port_mapper r) (oplog_index_mapper r) with
      | inl f => (r, Raised f)
      | inr (log_event, pm, m) =>
          let trace' := trace r ++ [current_state r] in
          match update_state (current_state r) log_event with
          | inl f =>
              ({| trace := trace';
                  current_state := current_state r;
                  port_mapper := pm;
                  oplog_index_mapper := m |}, Raised f)
          | inr next_state =>
              main_loop merged'
                {| trace := trace';
                   current_state := next_state;
                   port_mapper := pm;
                   oplog_index_mapper := m |}
          end
      end
  end.

(** [main(args)] up to the message "Final state": [logfile] is
    [args.logfile].  The merged lines are consumed as they are yielded, so
    a failure of the merge after its k-th line is met after k lines have
    been processed. *)
Definition main (logfile : list Stream) : Run * Outcome :=
  let '(merged, ending) := merge_log_streams logfile in
  match main_loop merged (initial_run (length logfile)) with
  | (r, Exhausted) => (r, ending)
  | (r, o) => (r, o)
  end.

(** The events of a sequence of lines, translated one after the other
    with the mappers carried along, as the loop of [main] does. *)
Fixpoint translate_all (merged : list LogLine)
    (pm : PortMapper.t) (m : OplogIndexMapper.t)
  : Failure + (list LogEvent.t * PortMapper.t * OplogIndexMapper.t) :=
  match merged with
  | [] => inr ([], pm, m)
  | log_line :: merged' =>
      letE (e, pm1, m1) := parse_log_line log_line pm m in
      letE (es, pm2, m2) := translate_all merged' pm1 m1 in
      inr (e :: es, pm2, m2)
  end.

End Accumulate.

(** ** Sample lines and streams

    Server A (port 27017) reports a log with one entry at optime (7, 1)
    and a commit point on it; server B (port 27018) reports an empty log
    and a commit point on the same optime. *)

Definition stream_a : Stream := {| name := "a.log"; lines := ["1{a}"] |}.
Definition stream_b : Stream := {| name := "b.log"; lines := ["2{b}"] |}.

(** A third file whose one trace line has the timestamp of the line of
    [stream_a], and a file with lines that are not trace lines. *)
Definition stream_c : Stream := {| name := "c.log"; lines := ["1{c}"] |}.
Definition stream_j : Stream :=
  {| name := "j.log"; lines := ["junk"; "1{a}"; ""; "2{b}"] |}.

Definition line_a : LogLine :=
  {| timestamp := 1;
     location := "a.log:1";
     line := "1{a}";
     obj := sample_payload 27017 [((7, 1), 1)] (7, 1) |}.

Definition line_b : LogLine :=
  {| timestamp := 2;
     location := "b.log:1";
     line := "2{b}";
     obj := sample_payload 27018 [] (7, 1) |}.

(** The first line [stream_j] yields: its second line. *)
Definition line_j : LogLine :=
  {| timestamp := 1;
     location := "j.log:2";
     line := "1{a}";
     obj := sample_payload 27017 [((7, 1), 1)] (7, 1) |}.

(** An event of server [id], and a store holding the initial state of
    two servers: the three tuples at 1, 2 and 3, the snapshot at 4. *)
Definition sample_event (id : nat) : @LogEvent.t sample :=
  {| LogEvent.timestamp := 1;
     LogEvent.location := "a.log:1";
     LogEvent.line := "1{a}";
     LogEvent.action := "BecomePrimaryByMagic";
     LogEvent.server_id := id;
     LogEvent.term := 0;
     LogEvent.state := (SPrimary : @ServerState sample);
     LogEvent.commitPoint :=
       {| CommitPoint.term := 0; CommitPoint.index := 0 |};
     LogEvent.log := [{| OplogEntry.term := 1 |}] |}.

Definition sample_store : gmap positive (@PyObj sample) :=
  <[4%positive := PySystemState 2 "Init" (-1) 1 2 3 ""]>
  (<[3%positive :=
       PyTuple
         (replicate 2
            (ICommitPoint
               {| CommitPoint.term := -1; CommitPoint.index := 0 |}))]>
  (<[2%positive := PyTuple (replicate 2 (IState (SFollower : @ServerState sample)))]>
  (<[1%positive := PyTuple (replicate 2 (ILog []))]> ∅))).

(** ** What a run has seen *)

(** [latest i f d es]: what the last event of server [i] among [es]
    reports for [f], and [d] when [es] has no event of that server. *)
Definition latest `{Collaborators} {A : Type} (i : nat)
    (f : LogEvent.t -> A) (d : A) (es : list LogEvent.t) : A :=
  foldl (fun acc e => if decide (LogEvent.server_id e = i) then f e else acc)
        d es.

(** A port mapper as calls of [get_server_id] leave it: every id handed
    out is below the next one, no id is handed out to two ports, and the
    next id is the number of ports known. *)
Definition port_mapper_ok (pm : PortMapper.t) : Prop :=
  (∀ p i, PortMapper.ids pm !! p = Some i → (i < PortMapper.next_id pm)%nat) ∧
  (∀ p q i, PortMapper.ids pm !! p = Some i →
            PortMapper.ids pm !! q = Some i → p = q) ∧
  size (PortMapper.ids pm) = PortMapper.next_id pm.

(** The ports the lines of a sequence report. *)
Definition ports_of (merged : list LogLine) : gset Z :=
  list_to_set ((fun l => tr_port (obj l)) <$> merged).

(** * Properties *)

(** ** The port mapper *)

Section PortMapperFacts.
Import PortMapper.

Lemma get_server_id_known pm p i :
  ids pm !! p = Some i → get_server_id p pm = (i, pm).
Proof. intros Hp. unfold get_server_id. by rewrite Hp. Qed.

Lemma get_server_id_lookup pm p :
  ids (get_server_id p pm).2 !! p = Some (get_server_id p pm).1.
Proof.
  unfold get_server_id. destruct (ids pm !! p) eqn:Hp; simpl; [done|].
  apply lookup_insert_eq.
Qed.

Lemma get_server_id_mono pm p :
  ids pm ⊆ ids (get_server_id p pm).2.
Proof.
  unfold get_server_id. destruct (ids pm !! p) eqn:Hp; simpl; [done|].
  by apply insert_subseteq.
Qed.

Lemma get_server_ids_mono ports pm :
  ids pm ⊆ ids (get_server_ids ports pm).2.
Proof.
  revert pm. induction ports as [|p ports IH]; intros pm; simpl; [done|].
  pose proof (get_server_id_mono pm p) as Hstep.
  destruct (get_server_id p pm) as [i pm1]. simpl in Hstep.
  specialize (IH pm1). destruct (get_server_ids ports pm1) as [js pm2].
  simpl in *. by etrans.
Qed.

Lemma get_server_ids_app ps qs pm :
  get_server_ids (ps ++ qs) pm =
  ((get_server_ids ps pm).1 ++ (get_server_ids qs (get_server_ids ps pm).2).1,
   (get_server_ids qs (get_server_ids ps pm).2).2).
Proof.
  revert pm. induction ps as [|p ps IH]; intros pm; simpl.
  - by destruct (get_server_ids qs pm).
  - destruct (get_server_id p pm) as [i pm1]. rewrite IH.
    destruct (get_server_ids ps pm1) as [js pm2]. simpl.
    by destruct (get_server_ids qs pm2).
Qed.

(** Ports never seen get the next ids, one after the other. *)
Lemma get_server_ids_fresh ports pm :
  NoDup ports →
  (∀ p, p ∈ ports → ids pm !! p = None) →
  (get_server_ids ports pm).1 = seq (next_id pm) (length ports) ∧
  next_id (get_server_ids ports pm).2 = (next_id pm + length ports)%nat ∧
  (∀ k p, ports !! k = Some p →
     ids (get_server_ids ports pm).2 !! p = Some (next_id pm + k)%nat).
Proof.
  revert pm. induction ports as [|p ports IH]; intros pm Hnd Hnew; simpl.
  - split; [done|]. split; [lia|]. intros k p Hk. by rewrite lookup_nil in Hk.
  - apply NoDup_cons in Hnd as [Hp Hnd].
    unfold get_server_id. rewrite (Hnew p) by apply list_elem_of_here.
    set (pm1 := {| ids := <[p:=next_id pm]> (ids pm);
                   next_id := S (next_id pm) |}).
    destruct (IH pm1 Hnd) as (Hids & Hnext & Hlook).
    { intros q Hq. simpl. rewrite lookup_insert_ne.
      - apply Hnew. by apply list_elem_of_further.
      - intros ->. done. }
    pose proof (get_server_ids_mono ports pm1) as Hmono.
    destruct (get_server_ids ports pm1) as [js pm2]. simpl in *.
    split; [by rewrite Hids|]. split; [lia|].
    intros [|k] q Hk; simpl in Hk.
    + injection Hk as <-. rewrite Nat.add_0_r.
      eapply lookup_weaken; [|exact Hmono]. apply lookup_insert_eq.
    + rewrite (Hlook k q Hk). f_equal. lia.
Qed.

End PortMapperFacts.

(** ** The oplog index mapper and the translation of one line *)

Section OplogIndexMapperFacts.
Import OplogIndexMapper.

Lemma set_index_inr (ts : Optime) (i : nat) (m m' : gmap Optime nat) :
  set_index ts i m = inr m' →
  m ⊆ m' ∧ m' !! ts = Some i ∧ (∀ ts', ts' ≠ ts → m' !! ts' = m !! ts').
Proof.
  unfold set_index. destruct (m !! ts) as [j|] eqn:Hts.
  - destruct (decide (j = i)) as [->|]; [|done]. intros [= <-]. done.
  - intros [= <-]. split; [by apply insert_subseteq|].
    split; [apply lookup_insert_eq|]. intros ts' Hne.
    by apply lookup_insert_ne.
Qed.

(** A walk that succeeds has put every optime of the log at its position,
    and has touched nothing else. *)
Lemma generate_oplog_entries_inr log : ∀ (i : nat) (m m' : gmap Optime nat) entries,
  generate_oplog_entries i log m = inr (entries, m') →
  m ⊆ m' ∧
  entries = map (fun e => {| OplogEntry.term := e.2 |}) log ∧
  (∀ k ts t, log !! k = Some (ts, t) → m' !! ts = Some (i + k)%nat) ∧
  (∀ ts, ts ∉ log.*1 → m' !! ts = m !! ts).
Proof.
  induction log as [|[ts t] log IH]; intros i m m' entries; simpl.
  - intros [= <- <-]. split; [done|]. split; [done|].
    split; [|done]. intros k ts t Hk. by rewrite lookup_nil in Hk.
  - destruct (set_index ts i m) as [f|m1] eqn:Hset; simpl; [done|].
    destruct (generate_oplog_entries (S i) log m1) as [f|[es m2]] eqn:Hgen;
      simpl; [done|].
    intros [= <- <-].
    apply set_index_inr in Hset as (Hsub1 & Hts & Hother).
    apply IH in Hgen as (Hsub2 & -> & Hlook & Hrest).
    split; [by etrans|]. split; [done|]. split.
    + intros [|k] ts' t' Hk; simpl in Hk.
      * injection Hk as <- <-. rewrite Nat.add_0_r.
        by eapply lookup_weaken.
      * rewrite (Hlook k ts' t' Hk). f_equal. lia.
    + intros ts' Hnotin. simpl in Hnotin.
      apply not_elem_of_cons in Hnotin as [Hne Hnotin].
      rewrite Hrest by done. by apply Hother.
Qed.

End OplogIndexMapperFacts.

Section TranslateFacts.
Context `{Collaborators}.

(** The steps of a translation that succeeds. *)
Lemma parse_log_line_inr log_line pm m e pm' m' :
  parse_log_line log_line pm m = inr (e, pm', m') →
  ∃ index state,
    generate_oplog_entries 0 (rm_log (tr_state (obj log_line))) m
      = inr (LogEvent.log e, m') ∧
    m' !! rm_commitPoint_ts (tr_state (obj log_line)) = Some index ∧
    ServerState_getitem (rm_serverState (tr_state (obj log_line)))
      = Some state ∧
    PortMapper.get_server_id (tr_port (obj log_line)) pm
      = (LogEvent.server_id e, pm') ∧
    e = {| LogEvent.timestamp := timestamp log_line;
           LogEvent.location := location log_line;
           LogEvent.line := line log_line;
           LogEvent.action := tr_action (obj log_line);
           LogEvent.server_id := LogEvent.server_id e;
           LogEvent.term := fixup_term (rm_term (tr_state (obj log_line)));
           LogEvent.state := state;
           LogEvent.commitPoint :=
             {| CommitPoint.term :=
                  fixup_term (rm_commitPoint_t (tr_state (obj log_line)));
                CommitPoint.index := index |};
           LogEvent.log := LogEvent.log e |}.
Proof.
  unfold parse_log_line.
  destruct (generate_oplog_entries 0 _ m) as [f|[log m1]]; simpl; [done|].
  unfold OplogIndexMapper.get_index.
  destruct (m1 !! _) as [index|] eqn:Hcp; simpl; [|done].
  destruct (PortMapper.get_server_id _ pm) as [id pm1].
  destruct (ServerState_getitem _) as [state|]; [|done].
  intros [= <- <- <-]. simpl. by exists index, state.
Qed.

Lemma parse_log_line_mono log_line pm m e pm' m' :
  parse_log_line log_line pm m = inr (e, pm', m') → m ⊆ m'.
Proof.
  intros (index & state & Hgen & _)%parse_log_line_inr.
  by apply generate_oplog_entries_inr in Hgen as (Hsub & _).
Qed.

Lemma translate_all_mono merged : ∀ pm m es pm' m',
  translate_all merged pm m = inr (es, pm', m') → m ⊆ m'.
Proof.
  induction merged as [|l merged IH]; intros pm m es pm' m'; simpl.
  - by intros [= <- <- <-].
  - destruct (parse_log_line l pm m) as [f|[[e pm1] m1]] eqn:Hl;
      simpl; [done|].
    destruct (translate_all merged pm1 m1) as [f|[[es' pm2] m2]] eqn:Hrest;
      simpl; [done|].
    intros [= <- <- <-]. apply parse_log_line_mono in Hl.
    apply IH in Hrest. by etrans.
Qed.

(** C6: term normalization sends -1 to 0 and leaves every other integer
    as it is, and a translation applies it to the reported current term
    and to the term of the commit point. *)
Theorem fixup_term_normalizes :
  fixup_term (-1) = 0 ∧
  (∀ term, term ≠ -1 → fixup_term term = term) ∧
  (∀ log_line pm m e pm' m',
     parse_log_line log_line pm m = inr (e, pm', m') →
     LogEvent.term e = fixup_term (rm_term (tr_state (obj log_line))) ∧
     CommitPoint.term (LogEvent.commitPoint e)
       = fixup_term (rm_commitPoint_t (tr_state (obj log_line)))).
Proof.
  split; [done|]. split.
  - intros term Hne. unfold fixup_term. by destruct (decide (term = -1)).
  - intros log_line pm m e pm' m' Hparse.
    apply parse_log_line_inr in Hparse as (index & state & _ & _ & _ & _ & ->).
    done.
Qed.

End TranslateFacts.

Lemma fixup_term_normalizes_witness :
  fixup_term 5 = 5 ∧
  ∃ e pm m,
    @parse_log_line sample line_a PortMapper.new OplogIndexMapper.new
      = inr (e, pm, m) ∧
    LogEvent.term e = 0 ∧ CommitPoint.term (LogEvent.commitPoint e) = 0.
Proof.
  destruct (@fixup_term_normalizes sample) as (_ & Hid & Happ).
  split; [apply Hid; lia|].
  destruct (@parse_log_line sample line_a PortMapper.new OplogIndexMapper.new)
    as [f|[[e pm] m]] eqn:Hparse; [by vm_compute in Hparse|].
  exists e, pm, m. split; [done|].
  destruct (Happ _ _ _ _ _ _ Hparse) as [-> ->]. by vm_compute.
Defined.

Section SharedIndexSpace.
Context `{Collaborators}.

(** C1, as the code has it: there is one oplog index mapper for the run,
    keyed on the optime alone.  Once an event whose reported log has the
    optime [ts] at position [k] is translated, [ts] stays at index [k]
    through all later translations, and a later line of any server whose
    commit point is [ts] is never refused as an unknown reference: when it
    is translated, the index of its commit point is [k]. *)
Theorem oplog_index_space_shared log_line pm m e pm1 m1 k ts t :
  parse_log_line log_line pm m = inr (e, pm1, m1) →
  rm_log (tr_state (obj log_line)) !! k = Some (ts, t) →
  ∀ later es pm2 (m2 : gmap Optime nat),
    translate_all later pm1 m1 = inr (es, pm2, m2) →
    m2 !! ts = Some k ∧
    ∀ other, rm_commitPoint_ts (tr_state (obj other)) = ts →
      parse_log_line other pm2 m2 ≠ inl UnknownOplogReference ∧
      ∀ e' pm3 m3, parse_log_line other pm2 m2 = inr (e', pm3, m3) →
        CommitPoint.index (LogEvent.commitPoint e') = k.
Proof.
  intros Hparse Hk later es pm2 m2 Hlater.
  apply parse_log_line_inr in Hparse as (_ & _ & Hgen & _).
  apply generate_oplog_entries_inr in Hgen as (_ & _ & Hlook & _).
  specialize (Hlook k ts t Hk). simpl in Hlook.
  apply translate_all_mono in Hlater.
  assert (m2 !! ts = Some k) as Hm2 by by eapply lookup_weaken.
  split; [done|]. intros other Hcp. split.
  - unfold parse_log_line.
    destruct (generate_oplog_entries 0 _ m2) as [f|[log m3]] eqn:Hgen;
      simpl.
    + intros [= ->].
      clear -Hgen. revert Hgen. generalize 0%nat, m2.
      induction (rm_log (tr_state (obj other))) as [|[ts' t'] log IH];
        intros i m; simpl; [done|].
      unfold OplogIndexMapper.set_index at 1.
      destruct (m !! ts') as [j|]; simpl.
      * destruct (decide (j = i)); simpl; [|done].
        destruct (generate_oplog_entries (S i) log m) as [f|[es' m']] eqn:Hg;
          simpl; [|done]. intros [= ->]. by eapply IH.
      * destruct (generate_oplog_entries (S i) log _) as [f|[es' m']] eqn:Hg;
          simpl; [|done]. intros [= ->]. by eapply IH.
    + apply generate_oplog_entries_inr in Hgen as (Hsub & _).
      unfold OplogIndexMapper.get_index. rewrite Hcp.
      rewrite (lookup_weaken _ _ _ _ Hm2 Hsub). simpl.
      destruct (PortMapper.get_server_id _ pm2).
      by destruct (ServerState_getitem _).
  - intros e' pm3 m3 Hother.
    pose proof (parse_log_line_mono _ _ _ _ _ _ Hother) as Hsub.
    apply parse_log_line_inr in Hother
      as (index & state & _ & Hindex & _ & _ & ->). simpl.
    rewrite Hcp in Hindex.
    rewrite (lookup_weaken _ _ _ _ Hm2 Hsub) in Hindex. congruence.
Qed.

End SharedIndexSpace.

Lemma oplog_index_space_shared_witness :
  ∃ e pm1 m1 e' pm3 m3,
    @parse_log_line sample line_a PortMapper.new OplogIndexMapper.new
      = inr (e, pm1, m1) ∧
    @parse_log_line sample line_b pm1 m1 = inr (e', pm3, m3) ∧
    LogEvent.server_id e ≠ LogEvent.server_id e' ∧
    CommitPoint.index (LogEvent.commitPoint e') = 0%nat.
Proof.
  eexists _, _, _, _, _, _.
  split; [vm_compute; reflexivity|].
  split; [vm_compute; reflexivity|].
  split; [by vm_compute|].
  eapply (proj2 (proj2 (@oplog_index_space_shared sample line_a
            PortMapper.new OplogIndexMapper.new _ _ _ 0%nat (7, 1) 1
            ltac:(vm_compute; reflexivity) ltac:(reflexivity)
            [] [] _ _ ltac:(reflexivity))
          line_b ltac:(reflexivity))).
  vm_compute; reflexivity.
Defined.

(** C1 as stated fails.  Server B (port 27018) reports an empty log and a
    commit point at optime (7, 1).  On its own the line is refused: the
    optime is unknown.  After the line of server A (port 27017), whose log
    has that optime at position 0, the same line of B is translated, with
    the index A registered. *)
Lemma oplog_index_spaces_collide :
  ((7, 1) ∉ (rm_log (tr_state (obj line_b))).*1) ∧
  tr_port (obj line_a) ≠ tr_port (obj line_b) ∧
  @parse_log_line sample line_b PortMapper.new OplogIndexMapper.new
    = inl UnknownOplogReference ∧
  ∃ e pm1 m1 e' pm2 m2,
    @parse_log_line sample line_a PortMapper.new OplogIndexMapper.new
      = inr (e, pm1, m1) ∧
    @parse_log_line sample line_b pm1 m1 = inr (e', pm2, m2) ∧
    LogEvent.server_id e = 0%nat ∧ LogEvent.server_id e' = 1%nat ∧
    OplogIndexMapper.get_index (7, 1) OplogIndexMapper.new
      = inl UnknownOplogReference ∧
    OplogIndexMapper.get_index (7, 1) m1 = inr 0%nat ∧
    CommitPoint.index (LogEvent.commitPoint e') = 0%nat.
Proof.
  split; [by vm_compute; apply not_elem_of_nil|].
  split; [by vm_compute|].
  split; [vm_compute; reflexivity|].
  eexists _, _, _, _, _, _.
  split; [vm_compute; reflexivity|].
  split; [vm_compute; reflexivity|].
  repeat split; vm_compute; reflexivity.
Qed.

Section Abort.
Context `{Collaborators}.

Lemma main_loop_app before : ∀ rest r,
  main_loop (before ++ rest) r =
  match main_loop before r with
  | (r1, Exhausted) => main_loop rest r1
  | other => other
  end.
Proof.
  induction before as [|l before IH]; intros rest r; simpl; [done|].
  destruct (parse_log_line l _ _) as [f|[[e pm] m]]; [done|].
  destruct (update_state _ e); [done|]. apply IH.
Qed.

(** C7, as the code has it: when the optime of the commit point of a line
    is neither in the index mapper of the run (whichever server's log put
    it there) nor in the log the line reports, the translation of the
    line fails — as an unknown reference, unless the walk over the
    reported log has failed before — and the loop is left there: the
    variables of the run are as they were after the lines before, nothing
    is appended to the trace, and the lines after it play no part. *)
Theorem unknown_commit_point_aborts log_line r :
  oplog_index_mapper r !! rm_commitPoint_ts (tr_state (obj log_line)) = None →
  rm_commitPoint_ts (tr_state (obj log_line))
    ∉ (rm_log (tr_state (obj log_line))).*1 →
  ∃ f,
    parse_log_line log_line (port_mapper r) (oplog_index_mapper r) = inl f ∧
    (f = UnknownOplogReference ∨ f = IndexConflict) ∧
    (∀ log m1,
       generate_oplog_entries 0 (rm_log (tr_state (obj log_line)))
         (oplog_index_mapper r) = inr (log, m1) →
       f = UnknownOplogReference) ∧
    (∀ before r0 rest,
       main_loop before r0 = (r, Exhausted) →
       main_loop (before ++ log_line :: rest) r0 = (r, Raised f)) ∧
    (∀ logfile before rest ending,
       merge_log_streams logfile = (before ++ log_line :: rest, ending) →
       main_loop before (initial_run (length logfile)) = (r, Exhausted) →
       main logfile = (r, Raised f)).
Proof.
  intros Hm Hlog.
  assert (∃ f, parse_log_line log_line (port_mapper r) (oplog_index_mapper r)
               = inl f ∧
               (f = UnknownOplogReference ∨ f = IndexConflict) ∧
               (∀ log m1,
                  generate_oplog_entries 0 (rm_log (tr_state (obj log_line)))
                    (oplog_index_mapper r) = inr (log, m1) →
                  f = UnknownOplogReference)) as (f & Hparse & Hkind & Hwalk).
  { unfold parse_log_line.
    destruct (generate_oplog_entries 0 _ (oplog_index_mapper r))
      as [f|[log m1]] eqn:Hgen; simpl.
    - exists f. split; [done|]. split; [|done]. right.
      clear -Hgen. revert Hgen. generalize 0%nat, (oplog_index_mapper r).
      induction (rm_log (tr_state (obj log_line))) as [|[ts' t'] log IH];
        intros i m; simpl; [done|].
      unfold OplogIndexMapper.set_index at 1.
      destruct (m !! ts') as [j|]; simpl.
      + destruct (decide (j = i)); simpl; [|by intros [= <-]].
        destruct (generate_oplog_entries (S i) log m) as [f'|[es' m']] eqn:Hg;
          simpl; [|done]. intros [= <-]. by eapply IH.
      + destruct (generate_oplog_entries (S i) log _) as [f'|[es' m']] eqn:Hg;
          simpl; [|done]. intros [= <-]. by eapply IH.
    - apply generate_oplog_entries_inr in Hgen as (_ & _ & _ & Hrest).
      unfold OplogIndexMapper.get_index. rewrite (Hrest _ Hlog), Hm. simpl.
      exists UnknownOplogReference. split; [done|]. split; [by left|done]. }
  exists f. split; [done|]. split; [done|]. split; [done|].
  assert (∀ before r0 rest,
            main_loop before r0 = (r, Exhausted) →
            main_loop (before ++ log_line :: rest) r0 = (r, Raised f))
    as Hloop.
  { intros before r0 rest Hbefore. rewrite main_loop_app, Hbefore. simpl.
    by rewrite Hparse. }
  split; [done|].
  intros logfile before rest ending Hmerge Hbefore. unfold main.
  rewrite Hmerge. by rewrite (Hloop _ _ rest Hbefore).
Qed.

End Abort.

Lemma unknown_commit_point_aborts_witness :
  @main sample [stream_b]
    = (@initial_run sample 1, Raised UnknownOplogReference).
Proof.
  destruct (@unknown_commit_point_aborts sample line_b (@initial_run sample 1))
    as (f & Hparse & _ & Hwalk & _ & Hmain).
  - reflexivity.
  - vm_compute. apply not_elem_of_nil.
  - rewrite (Hwalk [] ∅ eq_refl) in Hmain.
    apply (Hmain [stream_b] [] [] Exhausted); reflexivity.
Defined.

(** C7 as stated fails.  With the two log files of servers A and B, the
    commit point of B's line is at an optime that no log reported by B
    contains; the line is translated all the same, because A's log had
    registered the optime, and the run goes to its end with a snapshot for
    B's event. *)
Lemma foreign_commit_point_accepted :
  (@merge_log_streams sample [stream_a; stream_b]).1 = [line_a; line_b] ∧
  (rm_commitPoint_ts (tr_state (obj line_b))
     ∉ (rm_log (tr_state (obj line_b))).*1) ∧
  ∃ r, @main sample [stream_a; stream_b] = (r, Exhausted) ∧
       length (trace r) = 2%nat ∧
       SystemState.commitPoint (current_state r) !! 1%nat
         = Some {| CommitPoint.term := 0; CommitPoint.index := 0 |} ∧
       SystemState.serverLogLocation (current_state r) = "b.log:1".
Proof.
  split; [vm_compute; reflexivity|].
  split; [vm_compute; apply not_elem_of_nil|].
  eexists. split; [vm_compute; reflexivity|].
  repeat split; vm_compute; reflexivity.
Qed.

(** ** The initial state *)

Section InitialState.
Context `{Collaborators}.

(** C5, as the code has it: in the state [main] starts from, every server
    is a follower with an empty log and the commit point
    [{term: -1, index: 0}], the action is "Init", and the global term is
    the sentinel -1 as it stands: it is not passed through the term
    normalization. *)
Theorem initial_state_synthesized n_servers :
  SystemState.n_servers (initial_state n_servers) = n_servers ∧
  SystemState.action (initial_state n_servers) = "Init" ∧
  SystemState.globalCurrentTerm (initial_state n_servers) = -1 ∧
  SystemState.serverLogLocation (initial_state n_servers) = "" ∧
  length (SystemState.log (initial_state n_servers)) = n_servers ∧
  length (SystemState.state (initial_state n_servers)) = n_servers ∧
  length (SystemState.commitPoint (initial_state n_servers)) = n_servers ∧
  (∀ i, (i < n_servers)%nat →
     SystemState.log (initial_state n_servers) !! i = Some [] ∧
     SystemState.state (initial_state n_servers) !! i = Some Follower ∧
     SystemState.commitPoint (initial_state n_servers) !! i
       = Some {| CommitPoint.term := -1; CommitPoint.index := 0 |}) ∧
  current_state (initial_run n_servers) = initial_state n_servers ∧
  trace (initial_run n_servers) = [].
Proof.
  simpl. rewrite !length_replicate. repeat split; try done.
  all: by apply lookup_replicate_2.
Qed.

End InitialState.

Lemma initial_state_synthesized_witness :
  SystemState.state (@initial_state sample 3) !! 2%nat = Some SFollower ∧
  SystemState.commitPoint (@initial_state sample 3) !! 2%nat
    = Some {| CommitPoint.term := -1; CommitPoint.index := 0 |} ∧
  SystemState.globalCurrentTerm (@initial_state sample 3) = -1.
Proof.
  destruct (@initial_state_synthesized sample 3)
    as (_ & _ & Hterm & _ & _ & _ & _ & Hservers & _).
  destruct (Hservers 2%nat ltac:(lia)) as (_ & Hstate & Hcp).
  by repeat split.
Defined.

(** C5 as stated fails: the global term of the initial state is -1, not
    the normalized value 0. *)
Lemma initial_term_not_normalized :
  SystemState.globalCurrentTerm (@initial_state sample 3) = -1 ∧
  fixup_term (-1) = 0 ∧
  SystemState.globalCurrentTerm (@initial_state sample 3) ≠ fixup_term (-1).
Proof. by vm_compute. Qed.

(** ** update_state *)

Section UpdateState.
Context `{Collaborators}.

Lemma setitem_inr {A : Type} (l : list A) i x :
  (i < length l)%nat → setitem l i x = inr (<[i := x]> l).
Proof. intros Hi. unfold setitem. by destruct (decide (i < length l)%nat). Qed.

Lemma update_state_inr s e :
  (LogEvent.server_id e < length (SystemState.log s))%nat →
  (LogEvent.server_id e < length (SystemState.state s))%nat →
  (LogEvent.server_id e < length (SystemState.commitPoint s))%nat →
  update_state s e =
  inr {| SystemState.n_servers := SystemState.n_servers s;
         SystemState.action := LogEvent.action e;
         SystemState.globalCurrentTerm := LogEvent.term e;
         SystemState.log :=
           <[LogEvent.server_id e := LogEvent.log e]> (SystemState.log s);
         SystemState.state :=
           <[LogEvent.server_id e := LogEvent.state e]> (SystemState.state s);
         SystemState.commitPoint :=
           <[LogEvent.server_id e := LogEvent.commitPoint e]>
             (SystemState.commitPoint s);
         SystemState.serverLogLocation := LogEvent.location e |}.
Proof.
  intros Hlog Hstate Hcp. unfold update_state.
  by rewrite !setitem_inr.
Qed.

(** The operations on the store. *)
Lemma alloc_inr o (σ : gmap positive PyObj) :
  ∃ l, alloc o σ = inr (l, <[l := o]> σ) ∧ σ !! l = None.
Proof.
  exists (fresh (dom σ)). split; [done|].
  apply not_elem_of_dom, is_fresh.
Qed.

Lemma py_list_inr l items (σ : gmap positive PyObj) :
  σ !! l = Some (PyTuple items) →
  ∃ l', py_list l σ = inr (l', <[l' := PyList items]> σ) ∧ σ !! l' = None.
Proof.
  intros Hl. unfold py_list, hbind, items_at. rewrite Hl. apply alloc_inr.
Qed.

Lemma py_tuple_inr l items (σ : gmap positive PyObj) :
  σ !! l = Some (PyList items) →
  ∃ l', py_tuple l σ = inr (l', <[l' := PyTuple items]> σ) ∧ σ !! l' = None.
Proof.
  intros Hl. unfold py_tuple, hbind, items_at. rewrite Hl. apply alloc_inr.
Qed.

Lemma py_setitem_inr l items i v (σ : gmap positive PyObj) :
  σ !! l = Some (PyList items) → (i < length items)%nat →
  py_setitem l i v σ = inr (tt, <[l := PyList (<[i := v]> items)]> σ).
Proof.
  intros Hl Hi. unfold py_setitem. rewrite Hl.
  by destruct (decide (i < length items)%nat).
Qed.

Lemma mapM_insert {A B : Type} (f : A → option B) l k i x y :
  mapM f l = Some k → f x = Some y →
  mapM f (<[i := x]> l) = Some (<[i := y]> k).
Proof.
  rewrite !mapM_Some. intros Hlk Hxy. by apply Forall2_insert.
Qed.

Lemma mapM_length_eq {A B : Type} (f : A → option B) l k :
  mapM f l = Some k → length l = length k.
Proof. rewrite mapM_Some. apply Forall2_length. Qed.

(** What a snapshot object denotes does not change when the store gets
    more objects. *)
Lemma snapshot_at_weaken (σ σ' : gmap positive PyObj) l s :
  snapshot_at σ l = Some s → σ ⊆ σ' → snapshot_at σ' l = Some s.
Proof.
  unfold snapshot_at, tuple_at. intros Hs Hsub.
  destruct (σ !! l) as [[| |n a g lg st cp lo]|] eqn:Hl; try done.
  rewrite (lookup_weaken _ _ _ _ Hl Hsub).
  destruct (σ !! lg) as [[logs| |]|] eqn:Hlg; try done.
  destruct (σ !! st) as [[states| |]|] eqn:Hst;
    try (by simpl in Hs; destruct (mapM as_log logs)).
  destruct (σ !! cp) as [[cps| |]|] eqn:Hcp;
    try (by simpl in Hs; destruct (mapM as_log logs);
         simpl in Hs; destruct (mapM as_state states)).
  by rewrite (lookup_weaken _ _ _ _ Hlg Hsub),
    (lookup_weaken _ _ _ _ Hst Hsub), (lookup_weaken _ _ _ _ Hcp Hsub).
Qed.

Lemma snapshot_at_Some (σ : gmap positive PyObj) l s :
  snapshot_at σ l = Some s →
  ∃ lg st cp logs states cps,
    σ !! l = Some (PySystemState (SystemState.n_servers s)
                     (SystemState.action s) (SystemState.globalCurrentTerm s)
                     lg st cp (SystemState.serverLogLocation s)) ∧
    σ !! lg = Some (PyTuple logs) ∧ mapM as_log logs = Some (SystemState.log s) ∧
    σ !! st = Some (PyTuple states) ∧
    mapM as_state states = Some (SystemState.state s) ∧
    σ !! cp = Some (PyTuple cps) ∧
    mapM as_commitPoint cps = Some (SystemState.commitPoint s).
Proof.
  unfold snapshot_at, tuple_at. intros Hs.
  destruct (σ !! l) as [[| |n a g lg st cp lo]|] eqn:Hl; try done.
  destruct (σ !! lg) as [[logs| |]|] eqn:Hlg; try done. simpl in Hs.
  destruct (mapM as_log logs) as [ls|] eqn:Hlogs; [|done]. simpl in Hs.
  destruct (σ !! st) as [[states| |]|] eqn:Hst; try done. simpl in Hs.
  destruct (mapM as_state states) as [ss|] eqn:Hstates; [|done]. simpl in Hs.
  destruct (σ !! cp) as [[cps| |]|] eqn:Hcp; try done. simpl in Hs.
  destruct (mapM as_commitPoint cps) as [cs|] eqn:Hcps; [|done]. simpl in Hs.
  injection Hs as <-. simpl. by exists lg, st, cp, logs, states, cps.
Qed.

End UpdateState.

Section UpdateStateFrame.
Context `{Collaborators}.

(** C3, as the code has it: for a snapshot [s] and an event [e] whose
    [server_id] is within the three per-server tuples of [s],
    [update_state] returns a new snapshot in which position [server_id] of
    [log], [state] and [commitPoint] holds the values of [e], every other
    position and [n_servers] are as in [s], and [action],
    [globalCurrentTerm] and [serverLogLocation] are those of [e].  On the
    store of objects, the snapshot returned is a new object, every object
    that existed before the call is unchanged, and the argument still
    denotes [s]. *)
Theorem update_state_overwrites_one_server
    (σ : gmap positive PyObj) current_state s e :
  snapshot_at σ current_state = Some s →
  (LogEvent.server_id e < length (SystemState.log s))%nat →
  (LogEvent.server_id e < length (SystemState.state s))%nat →
  (LogEvent.server_id e < length (SystemState.commitPoint s))%nat →
  ∃ s' next σ',
    update_state s e = inr s' ∧
    update_state_heap current_state e σ = inr (next, σ') ∧
    snapshot_at σ' next = Some s' ∧
    SystemState.log s' !! LogEvent.server_id e = Some (LogEvent.log e) ∧
    SystemState.state s' !! LogEvent.server_id e = Some (LogEvent.state e) ∧
    SystemState.commitPoint s' !! LogEvent.server_id e
      = Some (LogEvent.commitPoint e) ∧
    (∀ j, j ≠ LogEvent.server_id e →
       SystemState.log s' !! j = SystemState.log s !! j ∧
       SystemState.state s' !! j = SystemState.state s !! j ∧
       SystemState.commitPoint s' !! j = SystemState.commitPoint s !! j) ∧
    length (SystemState.log s') = length (SystemState.log s) ∧
    length (SystemState.state s') = length (SystemState.state s) ∧
    length (SystemState.commitPoint s')
      = length (SystemState.commitPoint s) ∧
    SystemState.n_servers s' = SystemState.n_servers s ∧
    SystemState.action s' = LogEvent.action e ∧
    SystemState.globalCurrentTerm s' = LogEvent.term e ∧
    SystemState.serverLogLocation s' = LogEvent.location e ∧
    σ ⊆ σ' ∧ σ !! next = None ∧
    snapshot_at σ' current_state = Some s.
Proof.
  intros Hs Hlog Hstate Hcp.
  rewrite (update_state_inr s e Hlog Hstate Hcp).
  eexists. 
  pose proof Hs as (lg & st & cp & logs & states & cps & Hl & Hlg & Hlogs
                    & Hst & Hstates & Hcpl & Hcps)%snapshot_at_Some.
  pose proof (mapM_length_eq _ _ _ Hlogs) as Hlen1.
  pose proof (mapM_length_eq _ _ _ Hstates) as Hlen2.
  pose proof (mapM_length_eq _ _ _ Hcps) as Hlen3.
  unfold update_state_heap, hbind at 1, attributes. rewrite Hl.
  (* next_log *)
  destruct (py_list_inr lg logs σ Hlg) as (l1 & E1 & F1).
  unfold hbind at 1. rewrite E1.
  unfold hbind at 1.
  erewrite py_setitem_inr; [|apply lookup_insert_eq|lia].
  rewrite insert_insert_eq.
  set (σ1 := <[l1 := PyList (<[LogEvent.server_id e := ILog (LogEvent.log e)]> logs)]> σ).
  assert (σ ⊆ σ1) as S1 by by apply insert_subseteq.
  (* next_server_state *)
  destruct (py_list_inr st states σ1 (lookup_weaken _ _ _ _ Hst S1))
    as (l2 & E2 & F2).
  unfold hbind at 1. rewrite E2.
  unfold hbind at 1.
  erewrite py_setitem_inr; [|apply lookup_insert_eq|lia].
  rewrite insert_insert_eq.
  set (σ2 := <[l2 := PyList (<[LogEvent.server_id e := IState (LogEvent.state e)]> states)]> σ1).
  assert (σ1 ⊆ σ2) as S2 by by apply insert_subseteq.
  (* next_commit_point *)
  destruct (py_list_inr cp cps σ2
              (lookup_weaken _ _ _ _ (lookup_weaken _ _ _ _ Hcpl S1) S2))
    as (l3 & E3 & F3).
  unfold hbind at 1. rewrite E3.
  unfold hbind at 1.
  erewrite py_setitem_inr; [|apply lookup_insert_eq|lia].
  rewrite insert_insert_eq.
  set (σ3 := <[l3 := PyList (<[LogEvent.server_id e := ICommitPoint (LogEvent.commitPoint e)]> cps)]> σ2).
  assert (σ2 ⊆ σ3) as S3 by by apply insert_subseteq.
  (* the three tuples *)
  assert (σ1 !! l1 = Some (PyList (<[LogEvent.server_id e := ILog (LogEvent.log e)]> logs)))
    as G1 by apply lookup_insert_eq.
  assert (σ2 !! l2 = Some (PyList (<[LogEvent.server_id e := IState (LogEvent.state e)]> states)))
    as G2 by apply lookup_insert_eq.
  assert (σ3 !! l3 = Some (PyList (<[LogEvent.server_id e := ICommitPoint (LogEvent.commitPoint e)]> cps)))
    as G3 by apply lookup_insert_eq.
  destruct (py_tuple_inr l1 _ σ3
              (lookup_weaken _ _ _ _ (lookup_weaken _ _ _ _ G1 S2) S3))
    as (t1 & E4 & F4).
  unfold hbind at 1. rewrite E4.
  set (σ4 := <[t1 := _]> σ3).
  assert (σ3 ⊆ σ4) as S4 by by apply insert_subseteq.
  destruct (py_tuple_inr l2 _ σ4
              (lookup_weaken _ _ _ _ (lookup_weaken _ _ _ _ G2 S3) S4))
    as (t2 & E5 & F5).
  unfold hbind at 1. rewrite E5.
  set (σ5 := <[t2 := _]> σ4).
  assert (σ4 ⊆ σ5) as S5 by by apply insert_subseteq.
  destruct (py_tuple_inr l3 _ σ5
              (lookup_weaken _ _ _ _ (lookup_weaken _ _ _ _ G3 S4) S5))
    as (t3 & E6 & F6).
  unfold hbind at 1. rewrite E6.
  set (σ6 := <[t3 := _]> σ5).
  assert (σ5 ⊆ σ6) as S6 by by apply insert_subseteq.
  destruct (alloc_inr (PySystemState (SystemState.n_servers s)
              (LogEvent.action e) (LogEvent.term e) t1 t2 t3
              (LogEvent.location e)) σ6) as (next & E7 & F7).
  rewrite E7.
  set (σ7 := <[next := _]> σ6).
  assert (σ6 ⊆ σ7) as S7 by by apply insert_subseteq.
  assert (σ ⊆ σ7) as Sall by (do 6 (etrans; [eassumption|]); done).
  exists next, σ7. split; [done|]. split; [done|].
  split.
  { unfold snapshot_at, tuple_at.
    assert (σ7 !! next = Some (PySystemState (SystemState.n_servers s)
              (LogEvent.action e) (LogEvent.term e) t1 t2 t3
              (LogEvent.location e))) as -> by apply lookup_insert_eq.
    assert (σ7 !! t1 = Some (PyTuple (<[LogEvent.server_id e := ILog (LogEvent.log e)]> logs))) as ->.
    { eapply lookup_weaken; [apply lookup_insert_eq|]. by do 2 (etrans; [eassumption|]). }
    assert (σ7 !! t2 = Some (PyTuple (<[LogEvent.server_id e := IState (LogEvent.state e)]> states))) as ->.
    { eapply lookup_weaken; [apply lookup_insert_eq|]. by etrans. }
    assert (σ7 !! t3 = Some (PyTuple (<[LogEvent.server_id e := ICommitPoint (LogEvent.commitPoint e)]> cps))) as ->.
    { eapply lookup_weaken; [apply lookup_insert_eq|]. done. }
    simpl.
    rewrite (mapM_insert as_log _ _ (LogEvent.server_id e) (ILog (LogEvent.log e)) _ Hlogs eq_refl). simpl.
    rewrite (mapM_insert as_state _ _ (LogEvent.server_id e) (IState (LogEvent.state e)) _ Hstates eq_refl). simpl.
    by rewrite (mapM_insert as_commitPoint _ _ (LogEvent.server_id e) (ICommitPoint (LogEvent.commitPoint e)) _ Hcps eq_refl). }
  simpl. rewrite !length_insert.
  rewrite !list_lookup_insert_eq by done.
  do 3 (split; [done|]).
  split.
  { intros j Hj. by rewrite !list_lookup_insert_ne. }
  do 7 (split; [done|]).
  split; [done|]. split.
  { destruct (σ !! next) eqn:Hnext; [|done].
    by rewrite (lookup_weaken _ _ _ _ Hnext (transitivity S1 (transitivity S2
         (transitivity S3 (transitivity S4 (transitivity S5 S6)))))) in F7. }
  by eapply snapshot_at_weaken.
Qed.

End UpdateStateFrame.

Lemma update_state_overwrites_one_server_witness :
  ∃ s' next σ',
    @update_state sample (@initial_state sample 2) (sample_event 1) = inr s' ∧
    @update_state_heap sample 4%positive (sample_event 1) sample_store
      = inr (next, σ') ∧
    SystemState.state s' !! 1%nat = Some SPrimary ∧
    SystemState.state s' !! 0%nat = Some SFollower ∧
    sample_store ⊆ σ' ∧
    @snapshot_at sample σ' 4%positive = Some (@initial_state sample 2).
Proof.
  destruct (@update_state_overwrites_one_server sample sample_store 4%positive
              (@initial_state sample 2) (sample_event 1))
    as (s' & next & σ' & Hpure & Hheap & _ & _ & Hstate & _ & Hother
        & _ & _ & _ & _ & _ & _ & _ & Hsub & _ & Hsame).
  - vm_compute. reflexivity.
  - simpl. lia.
  - simpl. lia.
  - simpl. lia.
  - exists s', next, σ'.
    destruct (Hother 0%nat ltac:(simpl; lia)) as (_ & Hzero & _).
    split; [done|]. split; [done|]. split; [done|]. split; [done|]. done.
Defined.

(** C3 as stated fails for an event whose [server_id] is not a position
    of the tuples: with two servers and [server_id] 2 the assignment
    [next_log[2] = ...] raises and no snapshot is returned. *)
Lemma update_state_out_of_range :
  @snapshot_at sample sample_store 4%positive
    = Some (@initial_state sample 2) ∧
  LogEvent.server_id (sample_event 2) = 2%nat ∧
  @update_state sample (@initial_state sample 2) (sample_event 2)
    = inl IndexError ∧
  @update_state_heap sample 4%positive (sample_event 2) sample_store
    = inl IndexError.
Proof. repeat split; vm_compute; reflexivity. Qed.

(** ** The loop of main *)

Section MainLoop.
Context `{Collaborators}.

Lemma translate_all_length merged : ∀ pm m es pm' m',
  translate_all merged pm m = inr (es, pm', m') → length es = length merged.
Proof.
  induction merged as [|l merged IH]; intros pm m es pm' m'; simpl.
  - by intros [= <- <- <-].
  - destruct (parse_log_line l pm m) as [f|[[e pm1] m1]]; simpl; [done|].
    destruct (translate_all merged pm1 m1) as [f|[[es' pm2] m2]] eqn:Hrest;
      simpl; [done|].
    intros [= <- <- <-]. simpl. f_equal. by eapply IH.
Qed.

(** The trace after the loop, in terms of the events translated. *)
Lemma main_loop_chain merged : ∀ r r' o,
  main_loop merged r = (r', o) →
  ∃ es snaps pm m,
    translate_all (take (length es) merged)
      (port_mapper r) (oplog_index_mapper r) = inr (es, pm, m) ∧
    trace r' = trace r ++ snaps ∧
    length snaps = length es ∧
    (snaps ++ [current_state r']) !! 0%nat = Some (current_state r) ∧
    (∀ i e, es !! i = Some e → (S i < length es)%nat ∨ o = Exhausted →
       ∃ s s', snaps !! i = Some s ∧
               (snaps ++ [current_state r']) !! S i = Some s' ∧
               update_state s e = inr s') ∧
    (o = Exhausted →
       length es = length merged ∧
       pm = port_mapper r' ∧ m = oplog_index_mapper r').
Proof.
  induction merged as [|l merged IH]; intros r r' o; simpl.
  - intros [= <- <-]. exists [], [], (port_mapper r), (oplog_index_mapper r).
    simpl. rewrite app_nil_r. repeat split; try done.
    all: intros i e Hi; by rewrite lookup_nil in Hi.
  - destruct (parse_log_line l _ _) as [f|[[e pm1] m1]] eqn:Hparse.
    { intros [= <- <-].
      exists [], [], (port_mapper r), (oplog_index_mapper r).
      simpl. rewrite app_nil_r. repeat split; try done.
      all: intros i e Hi; by rewrite lookup_nil in Hi. }
    destruct (update_state (current_state r) e) as [f|s1] eqn:Hupdate.
    { intros [= <- <-]. exists [e], [current_state r], pm1, m1.
      simpl. rewrite Hparse. simpl. repeat split; try done.
      all: intros [|i] e' Hi [Hlt|Hex]; simpl in *; try done; lia. }
    intros Hloop.
    destruct (IH _ _ _ Hloop)
      as (es & snaps & pm & m & Htr & Htrace & Hlen & Hfirst & Hchain & Hend).
    simpl in *.
    exists (e :: es), (current_state r :: snaps), pm, m. simpl.
    rewrite Hparse. simpl. rewrite Htr. simpl.
    split; [done|]. split; [by rewrite Htrace, <-app_assoc|].
    split; [by rewrite Hlen|]. split; [done|]. split.
    + intros [|i] e' Hi Hcase; simpl in *.
      * injection Hi as <-. by exists (current_state r), s1.
      * apply (Hchain i e' Hi). destruct Hcase; [left; lia|by right].
    + intros Ho. destruct (Hend Ho) as (-> & -> & ->). done.
Qed.

(** The loop goes through all lines when every line is translated and
    every server id is a position of the per-server tuples. *)
Lemma main_loop_exhausted merged : ∀ r es pm m n,
  translate_all merged (port_mapper r) (oplog_index_mapper r)
    = inr (es, pm, m) →
  Forall (fun e => (LogEvent.server_id e < n)%nat) es →
  length (SystemState.log (current_state r)) = n →
  length (SystemState.state (current_state r)) = n →
  length (SystemState.commitPoint (current_state r)) = n →
  ∃ r', main_loop merged r = (r', Exhausted).
Proof.
  induction merged as [|l merged IH]; intros r es pm m n; simpl.
  - intros _ _ _ _ _. by exists r.
  - destruct (parse_log_line l _ _) as [f|[[e pm1] m1]] eqn:Hparse;
      simpl; [done|].
    destruct (translate_all merged pm1 m1) as [f|[[es' pm2] m2]] eqn:Hrest;
      simpl; [done|].
    intros [= <- <- <-] Hids Hlog Hstate Hcp.
    apply Forall_cons in Hids as [Hid Hids].
    rewrite update_state_inr by lia.
    eapply (IH _ es' pm2 m2 n); simpl; try done.
    all: by rewrite length_insert.
Qed.

(** C2: the loop of [main] starts from the initial state; for each event
    it appends the current state to the trace and then makes the state
    returned by [update_state] the current one.  So the trace has one
    entry per event translated, the first of them the initial state, each
    entry is the state its event was applied to, and the state after the
    last event is the current state when the loop is left, which is not
    in the trace.  The loop does go through every line when every line is
    translated and the server ids are below the number of servers. *)
Theorem trace_records_state_before_each_event n_servers merged r' o :
  main_loop merged (initial_run n_servers) = (r', o) →
  ∃ es pm m,
    translate_all (take (length es) merged)
      PortMapper.new OplogIndexMapper.new = inr (es, pm, m) ∧
    length (trace r') = length es ∧
    (trace r' ++ [current_state r']) !! 0%nat
      = Some (initial_state n_servers) ∧
    (∀ i e, es !! i = Some e → (S i < length es)%nat ∨ o = Exhausted →
       ∃ s s', trace r' !! i = Some s ∧
               (trace r' ++ [current_state r']) !! S i = Some s' ∧
               update_state s e = inr s') ∧
    (o = Exhausted →
       length (trace r') = length merged ∧
       translate_all merged PortMapper.new OplogIndexMapper.new
         = inr (es, port_mapper r', oplog_index_mapper r')) ∧
    (∀ es' pm' m',
       translate_all merged PortMapper.new OplogIndexMapper.new
         = inr (es', pm', m') →
       Forall (fun e => (LogEvent.server_id e < n_servers)%nat) es' →
       o = Exhausted) ∧
    (∀ logfile,
       main logfile = (r', Exhausted) →
       main_loop (merge_log_streams logfile).1
         (initial_run (length logfile)) = (r', Exhausted)).
Proof.
  intros Hloop.
  destruct (main_loop_chain _ _ _ _ Hloop)
    as (es & snaps & pm & m & Htr & Htrace & Hlen & Hfirst & Hchain & Hend).
  simpl in Htrace, Htr, Hfirst. rewrite Htrace.
  exists es, pm, m. split; [done|]. split; [done|]. split; [done|].
  split; [done|]. split.
  { intros Ho. destruct (Hend Ho) as (Hall & <- & <-).
    split; [congruence|]. by rewrite Hall, firstn_all in Htr. }
  split.
  { intros es' pm' m' Hall Hids.
    destruct (main_loop_exhausted merged (initial_run n_servers)
                es' pm' m' n_servers Hall Hids) as (r'' & Hr'').
    - simpl. apply length_replicate.
    - simpl. apply length_replicate.
    - simpl. apply length_replicate.
    - rewrite Hloop in Hr''. by injection Hr''. }
  intros logfile. unfold main.
  destruct (merge_log_streams logfile) as [merged' ending]. simpl.
  destruct (main_loop merged' _) as [r1 [| |]]; by intros [= -> ?].
Qed.

End MainLoop.

Lemma trace_records_state_before_each_event_witness :
  ∃ r',
    @main sample [stream_a; stream_b] = (r', Exhausted) ∧
    length (trace r') = 2%nat ∧
    trace r' !! 0%nat = Some (@initial_state sample 2).
Proof.
  destruct (@main_loop sample [line_a; line_b] (@initial_run sample 2))
    as [r' o] eqn:Hloop.
  destruct (@trace_records_state_before_each_event sample 2 [line_a; line_b]
              r' o Hloop)
    as (es & pm & m & _ & _ & Hfirst & _ & Hdone & Hgoes & _).
  assert (o = Exhausted) as ->.
  { eapply Hgoes; [vm_compute; reflexivity|].
    repeat constructor; simpl; lia. }
  destruct (Hdone eq_refl) as (Hlen & _).
  exists r'. split.
  - unfold main.
    replace (@merge_log_streams sample [stream_a; stream_b])
      with ([line_a; line_b], Exhausted) by (vm_compute; reflexivity).
    simpl length. by rewrite Hloop.
  - split; [done|].
    destruct (trace r') as [|s0 tr]; [done|]. exact Hfirst.
Defined.

(** ** The generator *)

Section GeneratorFacts.
Context `{Collaborators}.

(** [drain] is [next()] until the generator stops or raises. *)
Lemma drain_loop_gen_loop nm rest : ∀ n,
  drain_loop nm n rest =
  match gen_loop nm n rest with
  | Yield v g => (v :: (drain g).1, (drain g).2)
  | StopIteration => ([], Exhausted)
  | Raise f => ([], Raised f)
  end.
Proof.
  induction rest as [|l rest IH]; intros n; simpl; [done|].
  destruct (line_pat_match l) as [[ts json]|]; [|apply IH].
  destruct (parse_log_timestamp ts) as [t|]; [|done].
  destruct (json_loads json) as [o|]; [|done].
  unfold drain. simpl. by destruct (drain_loop nm (S n) rest).
Qed.

Lemma drain_gen_next g :
  drain g =
  match gen_next g with
  | Yield v g' => (v :: (drain g').1, (drain g').2)
  | StopIteration => ([], Exhausted)
  | Raise f => ([], Raised f)
  end.
Proof. apply drain_loop_gen_loop. Qed.

Lemma gen_loop_Yield nm rest : ∀ n v g,
  gen_loop nm n rest = Yield v g →
  decoded v ∧ g_name g = nm ∧ (length (g_rest g) < length rest)%nat.
Proof.
  induction rest as [|l rest IH]; intros n v g; simpl; [done|].
  destruct (line_pat_match l) as [[ts json]|] eqn:Hmatch.
  - destruct (parse_log_timestamp ts) as [t|] eqn:Hts; [|done].
    destruct (json_loads json) as [o|] eqn:Hjson; [|done].
    intros [= <- <-]. simpl. split; [|split; [done|lia]].
    by exists ts, json.
  - intros Hg. destruct (IH _ _ _ Hg) as (? & ? & ?).
    split; [done|]. split; [done|lia].
Qed.

Lemma gen_next_Yield g v g' :
  gen_next g = Yield v g' →
  decoded v ∧ g_name g' = g_name g ∧
  (length (g_rest g') < length (g_rest g))%nat.
Proof. apply gen_loop_Yield. Qed.

Lemma drain_decoded g : Forall decoded (drain g).1.
Proof.
  destruct g as [nm n rest]. unfold drain. simpl. revert n.
  induction rest as [|l rest IH]; intros n; simpl; [done|].
  destruct (line_pat_match l) as [[ts json]|] eqn:Hmatch; [|apply IH].
  destruct (parse_log_timestamp ts) as [t|] eqn:Hts; [|done].
  destruct (json_loads json) as [o|] eqn:Hjson; [|done].
  specialize (IH (S n)). destruct (drain_loop nm (S n) rest). simpl in *.
  constructor; [|done]. by exists ts, json.
Qed.

Lemma drain_not_OutOfFuel g : (drain g).2 ≠ OutOfFuel.
Proof.
  destruct g as [nm n rest]. unfold drain. simpl. revert n.
  induction rest as [|l rest IH]; intros n; simpl; [done|].
  destruct (line_pat_match l) as [[ts json]|]; [|apply IH].
  destruct (parse_log_timestamp ts) as [t|]; [|done].
  destruct (json_loads json) as [o|]; [|done].
  specialize (IH (S n)). by destruct (drain_loop nm (S n) rest).
Qed.

(** The lines a generator yields, by their positions in the lines it has
    still to read: [ks] are the positions, in increasing order. *)
Lemma drain_loop_positions (nm : string) (rest : list string) : ∀ n : nat,
  ∃ ks : list nat,
    StronglySorted lt ks ∧
    Forall2 (fun k v =>
               rest !! k = Some (line v) ∧
               location v = (nm ++ ":" ++ pretty (S (n + k)))%string ∧
               decoded v)
            ks (drain_loop nm n rest).1 ∧
    (∀ k l, rest !! k = Some l → line_pat_match l = None → k ∉ ks) ∧
    ((drain_loop nm n rest).2 = Exhausted →
     ∀ k l, rest !! k = Some l → line_pat_match l ≠ None → k ∈ ks) ∧
    (∀ f, (drain_loop nm n rest).2 = Raised f →
       ∃ k l ts json,
         rest !! k = Some l ∧ line_pat_match l = Some (ts, json) ∧
         (parse_log_timestamp ts = None ∧ f = ValueError ∨
          is_Some (parse_log_timestamp ts) ∧ json_loads json = None ∧
          f = InvalidJSON)).
Proof.
  induction rest as [|l rest IH]; intros n; simpl.
  - exists []. split; [constructor|]. split; [constructor|].
    split; [intros k l Hk; by rewrite lookup_nil in Hk|].
    split; [intros _ k l Hk; by rewrite lookup_nil in Hk|done].
  - destruct (IH (S n)) as (ks & Hsorted & Hall & Hskip & Hdone & Hfail).
    assert (StronglySorted lt (S <$> ks)) as Hsorted'.
    { eapply (StronglySorted_fmap S lt lt); [|done]. intros x y. lia. }
    assert (∀ k l', rest !! k = Some l' → line_pat_match l' = None →
                    S k ∉ S <$> ks) as Hskip'.
    { intros k l' Hk Hl' (k' & [= <-] & Hin)%list_elem_of_fmap.
      by eapply Hskip. }
    destruct (line_pat_match l) as [[ts json]|] eqn:Hmatch.
    + destruct (parse_log_timestamp ts) as [t|] eqn:Hts.
      * destruct (json_loads json) as [o|] eqn:Hjson.
        -- destruct (drain_loop nm (S n) rest) as [out r] eqn:Hdrain.
           simpl in *. exists (0%nat :: (S <$> ks)).
           split.
           { constructor; [done|]. apply Forall_fmap, Forall_forall.
             intros x _. simpl. lia. }
           split.
           { constructor.
             - simpl. rewrite Nat.add_0_r. repeat split; try done.
               by exists ts, json.
             - apply Forall2_fmap_l. eapply Forall2_impl; [exact Hall|].
               intros k v (Hk & Hloc & Hdec). simpl.
               split; [done|]. split; [|done].
               by replace (n + S k)%nat with (S n + k)%nat by lia. }
           split.
           { intros [|k] l' Hk Hl'; simpl in Hk.
             - injection Hk as <-. congruence.
             - apply not_elem_of_cons. split; [done|]. by eapply Hskip'. }
           split.
           { intros Hr [|k] l' Hk Hl'; simpl in Hk.
             - apply list_elem_of_here.
             - apply list_elem_of_further, list_elem_of_fmap.
               exists k. split; [done|]. by eapply Hdone. }
           intros f Hf. destruct (Hfail f Hf) as (k & l' & ts' & json' & Hk & ?).
           by exists (S k), l', ts', json'.
        -- simpl. exists []. split; [constructor|]. split; [constructor|].
           split; [intros k l' _ _; apply not_elem_of_nil|].
           split; [done|]. intros f [= <-].
           exists 0%nat, l, ts, json. split; [done|]. split; [done|].
           right. by rewrite Hts.
      * simpl. exists []. split; [constructor|]. split; [constructor|].
        split; [intros k l' _ _; apply not_elem_of_nil|].
        split; [done|]. intros f [= <-].
        exists 0%nat, l, ts, json. split; [done|]. split; [done|]. by left.
    + exists (S <$> ks). split; [done|]. split.
      { apply Forall2_fmap_l. eapply Forall2_impl; [exact Hall|].
        intros k v (Hk & Hloc & Hdec). simpl.
        split; [done|]. split; [|done].
        by replace (n + S k)%nat with (S n + k)%nat by lia. }
      split.
      { intros [|k] l' Hk Hl'; simpl in Hk.
        - intros (k' & [=] & _)%list_elem_of_fmap.
        - by eapply Hskip'. }
      split.
      { intros Hr [|k] l' Hk Hl'; simpl in Hk.
        - injection Hk as <-. congruence.
        - apply list_elem_of_fmap. exists k. split; [done|]. by eapply Hdone. }
      intros f Hf. destruct (Hfail f Hf) as (k & l' & ts' & json' & Hk & ?).
      by exists (S k), l', ts', json'.
Qed.

End GeneratorFacts.

(** ** The order on heap entries *)

Section EntryOrder.
Context `{Collaborators}.

Lemma string_ltb_lt a b :
  String.ltb a b = true ↔ OrderedTypeEx.String_as_OT.lt a b.
Proof.
  rewrite <-OrderedTypeEx.String_as_OT.cmp_lt.
  unfold String.ltb, OrderedTypeEx.String_as_OT.cmp.
  by destruct (String.compare a b).
Qed.

Lemma string_ltb_negb a b : a ≠ b → String.ltb b a = negb (String.ltb a b).
Proof.
  intros Hne. unfold String.ltb. rewrite (String.compare_antisym a b).
  destruct (String.compare b a) eqn:Hcmp; simpl; try done.
  apply String.compare_eq_iff in Hcmp. congruence.
Qed.

Lemma string_lt_irrefl a : ¬ OrderedTypeEx.String_as_OT.lt a a.
Proof. intros Hlt. by apply OrderedTypeEx.String_as_OT.lt_not_eq in Hlt. Qed.

(** Two lines built by [gen] from the same text have the same payload. *)
Lemma decoded_same_line a b :
  decoded a → decoded b → line a = line b → obj a = obj b.
Proof.
  intros (ts & json & Hm & _ & Ho) (ts' & json' & Hm' & _ & Ho') Hline.
  rewrite Hline in Hm. congruence.
Qed.

Lemma LogLine_eq a b :
  timestamp a = timestamp b → location a = location b →
  line a = line b → obj a = obj b → a = b.
Proof. destruct a, b. simpl. by intros -> -> -> ->. Qed.

(** On lines built by [gen], [entry_lt] never raises, and it decides
    [entry_before]. *)
Lemma entry_lt_decides a b :
  decoded (value a) → decoded (value b) → order a ≠ order b →
  ∃ c, entry_lt a b = inr c ∧ (c = true ↔ entry_before a b).
Proof.
  intros Ha Hb Horder. unfold entry_lt, LogLine_lt, entry_before.
  destruct (decide (value a = value b)) as [Heq|Hne].
  - rewrite (bool_decide_eq_true_2 _ Heq). simpl.
    rewrite bool_decide_eq_false_2 by done. simpl.
    eexists; split; [done|].
    rewrite Heq. rewrite Nat.ltb_lt. split.
    + intros Hlt. right. split; [done|]. right. split; [done|]. by right.
    + intros [Hlt|(_ & [Hlt|(_ & [Hlt|(_ & Hlt)])])]; try done; try lia.
      all: by apply string_lt_irrefl in Hlt.
  - rewrite (bool_decide_eq_false_2 _ Hne). simpl.
    destruct (decide (timestamp (value a) = timestamp (value b)))
      as [Hts|Hts].
    2:{ rewrite (bool_decide_eq_false_2 _ Hts). simpl.
        eexists; split; [done|]. rewrite Z.ltb_lt. split; [by left|].
        by intros [Hlt|(? & _)]. }
    rewrite (bool_decide_eq_true_2 _ Hts). simpl.
    destruct (decide (location (value a) = location (value b)))
      as [Hloc|Hloc].
    2:{ rewrite (bool_decide_eq_false_2 _ Hloc). simpl.
        eexists; split; [done|]. rewrite string_ltb_lt. split.
        - intros Hlt. right. split; [done|]. by left.
        - intros [Hlt|(_ & [Hlt|(? & _)])]; [lia|done|done]. }
    rewrite (bool_decide_eq_true_2 _ Hloc). simpl.
    destruct (decide (line (value a) = line (value b))) as [Hline|Hline].
    2:{ rewrite (bool_decide_eq_false_2 _ Hline). simpl.
        eexists; split; [done|]. rewrite string_ltb_lt. split.
        - intros Hlt. right. split; [done|]. right. split; [done|]. by left.
        - intros [Hlt|(_ & [Hlt|(_ & [Hlt|(? & _)])])]; try done; try lia.
          rewrite Hloc in Hlt. by apply string_lt_irrefl in Hlt. }
    destruct Hne. apply LogLine_eq; try done.
    by apply decoded_same_line.
Qed.

Lemma entry_before_trans a b c :
  entry_before a b → entry_before b c → entry_before a c.
Proof.
  unfold entry_before.
  intros [Hab|(Hts & [Hab|(Hloc & [Hab|(Hline & Hab)])])]
         [Hbc|(Hts' & [Hbc|(Hloc' & [Hbc|(Hline' & Hbc)])])].
  all: try (left; lia).
  all: right; split; [congruence|].
  all: try (left; congruence).
  all: try (left; by eapply OrderedTypeEx.String_as_OT.lt_trans).
  all: right; split; [congruence|].
  all: try (left; congruence).
  all: try (left; by eapply OrderedTypeEx.String_as_OT.lt_trans).
  right. split; [congruence|lia].
Qed.

Lemma entry_before_total a b :
  order a ≠ order b →
  (entry_before a b ∧ ¬ entry_before b a) ∨
  (entry_before b a ∧ ¬ entry_before a b).
Proof.
  intros Horder. unfold entry_before.
  destruct (Z.lt_trichotomy (timestamp (value a)) (timestamp (value b)))
    as [Hts|[Hts|Hts]].
  { left. split; [by left|]. intros [?|(? & _)]; lia. }
  2:{ right. split; [by left|]. intros [?|(? & _)]; lia. }
  destruct (OrderedTypeEx.String_as_OT.compare
              (location (value a)) (location (value b)))
    as [Hloc|Hloc|Hloc].
  { left. split; [right; split; [done|by left]|].
    intros [?|(_ & [Hlt|(Heq & _)])]; [lia| |].
    - by eapply string_lt_irrefl, OrderedTypeEx.String_as_OT.lt_trans.
    - rewrite Heq in Hloc. by apply string_lt_irrefl in Hloc. }
  2:{ right. split; [right; split; [done|by left]|].
      intros [?|(_ & [Hlt|(Heq & _)])]; [lia| |].
      - by eapply string_lt_irrefl, OrderedTypeEx.String_as_OT.lt_trans.
      - rewrite Heq in Hloc. by apply string_lt_irrefl in Hloc. }
  unfold OrderedTypeEx.String_as_OT.eq in Hloc.
  destruct (OrderedTypeEx.String_as_OT.compare
              (line (value a)) (line (value b)))
    as [Hline|Hline|Hline].
  { left. split; [right; split; [done|right; split; [done|by left]]|].
    intros [?|(_ & [Hlt|(_ & [Hlt|(Heq & _)])])]; [lia| | |].
    - rewrite Hloc in Hlt. by apply string_lt_irrefl in Hlt.
    - by eapply string_lt_irrefl, OrderedTypeEx.String_as_OT.lt_trans.
    - rewrite Heq in Hline. by apply string_lt_irrefl in Hline. }
  2:{ right. split; [right; split; [done|right; split; [done|by left]]|].
      intros [?|(_ & [Hlt|(_ & [Hlt|(Heq & _)])])]; [lia| | |].
      - rewrite Hloc in Hlt. by apply string_lt_irrefl in Hlt.
      - by eapply string_lt_irrefl, OrderedTypeEx.String_as_OT.lt_trans.
      - rewrite Heq in Hline. by apply string_lt_irrefl in Hline. }
  unfold OrderedTypeEx.String_as_OT.eq in Hline.
  destruct (Nat.lt_trichotomy (order a) (order b)) as [Ho|[Ho|Ho]]; [|done|].
  - left. split; [right; split; [done|right; split; [done|right; by split]]|].
    intros [?|(_ & [Hlt|(_ & [Hlt|(_ & ?)])])]; [lia| | |lia].
    + rewrite Hloc in Hlt. by apply string_lt_irrefl in Hlt.
    + rewrite Hline in Hlt. by apply string_lt_irrefl in Hlt.
  - right. split; [right; split; [done|right; split; [done|right; by split]]|].
    intros [?|(_ & [Hlt|(_ & [Hlt|(_ & ?)])])]; [lia| | |lia].
    + rewrite Hloc in Hlt. by apply string_lt_irrefl in Hlt.
    + rewrite Hline in Hlt. by apply string_lt_irrefl in Hlt.
Qed.

(** Whatever the lines, the entry that [entry_lt] puts first has the
    earlier or the same timestamp. *)
Lemma entry_lt_timestamp a b c :
  entry_lt a b = inr c →
  if c then (timestamp (value a) <= timestamp (value b))%Z
  else (timestamp (value b) <= timestamp (value a))%Z.
Proof.
  unfold entry_lt, LogLine_lt.
  destruct (decide (value a = value b)) as [Heq|Hne].
  - rewrite Heq. by destruct c; lia.
  - rewrite (bool_decide_eq_false_2 _ Hne). simpl.
    destruct (decide (timestamp (value a) = timestamp (value b)))
      as [Hts|Hts].
    + rewrite Hts. by destruct c; lia.
    + rewrite (bool_decide_eq_false_2 _ Hts). simpl. intros [= <-].
      destruct (Z.ltb_spec (timestamp (value a)) (timestamp (value b))); lia.
Qed.

End EntryOrder.

(** ** Taking the least entry *)

Section SelectMin.
Context `{Collaborators}.

Lemma select_min_perm h : ∀ e m others,
  select_min e h = inr (m, others) → m :: others ≡ₚ e :: h.
Proof.
  induction h as [|x h IH]; intros e m others; simpl.
  - by intros [= <- <-].
  - destruct (entry_lt x e) as [f|[|]]; [done| |].
    + destruct (select_min x h) as [f|[m' others']] eqn:Hsel; [done|].
      intros [= <- <-]. rewrite (Permutation_swap e m' others').
      by rewrite (IH _ _ _ Hsel).
    + destruct (select_min e h) as [f|[m' others']] eqn:Hsel; [done|].
      intros [= <- <-]. rewrite (Permutation_swap x m' others').
      rewrite (IH _ _ _ Hsel). apply Permutation_swap.
Qed.

Lemma select_min_least h : ∀ e m others,
  select_min e h = inr (m, others) →
  ∀ x, x ∈ e :: h → by_timestamp (value m) (value x).
Proof.
  unfold by_timestamp.
  induction h as [|x h IH]; intros e m others; simpl.
  - intros [= <- <-] y ->%list_elem_of_singleton. lia.
  - destruct (entry_lt x e) as [f|c] eqn:Hlt; [done|].
    apply entry_lt_timestamp in Hlt. destruct c.
    + destruct (select_min x h) as [f|[m' others']] eqn:Hsel; [done|].
      intros [= <- <-] y Hy.
      pose proof (IH _ _ _ Hsel x (list_elem_of_here _ _)) as Hmx.
      apply elem_of_cons in Hy as [->|Hy]; [lia|].
      by eapply IH.
    + destruct (select_min e h) as [f|[m' others']] eqn:Hsel; [done|].
      intros [= <- <-] y Hy.
      pose proof (IH _ _ _ Hsel e (list_elem_of_here _ _)) as Hme.
      apply elem_of_cons in Hy as [->|Hy]; [done|].
      apply elem_of_cons in Hy as [->|Hy]; [lia|].
      eapply IH; [done|]. by apply list_elem_of_further.
Qed.

(** Among lines built by [gen], from different sources, no comparison
    raises. *)
Lemma select_min_inr h : ∀ e,
  Forall (fun x => decoded (value x)) (e :: h) →
  NoDup (order <$> e :: h) →
  ∃ m others, select_min e h = inr (m, others).
Proof.
  induction h as [|x h IH]; intros e Hdec Hnd; simpl; [by eexists _, _|].
  apply Forall_cons in Hdec as [He Hdec].
  apply Forall_cons in Hdec as [Hx Hdec].
  simpl in Hnd. apply NoDup_cons in Hnd as [Hne Hnd].
  apply NoDup_cons in Hnd as [Hnx Hnd].
  apply not_elem_of_cons in Hne as [Hex Hne].
  destruct (entry_lt_decides x e Hx He) as (c & -> & _); [done|].
  destruct c.
  - destruct (IH x) as (m & others & ->).
    + by constructor.
    + simpl. by apply NoDup_cons.
    + by eexists _, _.
  - destruct (IH e) as (m & others & ->).
    + by constructor.
    + simpl. by apply NoDup_cons.
    + by eexists _, _.
Qed.

End SelectMin.

(** ** The sources of a merged sequence *)

Lemma from_source_cons_same v i out :
  from_source i ((v, i) :: out) = v :: from_source i out.
Proof. unfold from_source. by rewrite filter_cons_True. Qed.

Lemma from_source_cons_other v i j out :
  i ≠ j → from_source i ((v, j) :: out) = from_source i out.
Proof.
  intros Hne. unfold from_source. rewrite filter_cons_False; [done|].
  simpl. congruence.
Qed.

Lemma elem_of_from_source v i out :
  (v, i) ∈ out → v ∈ from_source i out.
Proof.
  intros Hin. unfold from_source. apply list_elem_of_fmap.
  exists (v, i). split; [done|]. by apply list_elem_of_filter.
Qed.

(** A merged sequence is a permutation of what its sources gave. *)
Lemma from_source_permutation n : ∀ out : list (LogLine * nat),
  (∀ p, p ∈ out → (p.2 < n)%nat) →
  out.*1 ≡ₚ concat ((fun i => from_source i out) <$> seq 0 n).
Proof.
  induction n as [|n IH]; intros out Hlt.
  - destruct out as [|p out]; [done|].
    specialize (Hlt p (list_elem_of_here _ _)). lia.
  - rewrite seq_S, fmap_app, concat_app. simpl. rewrite app_nil_r.
    rewrite <-(filter_app_complement (fun p => p.2 = n) out) at 1.
    rewrite fmap_app, (comm (++)). f_equiv; [|done].
    assert ((fun i => from_source i (filter (fun p => p.2 ≠ n) out)) <$> seq 0 n
            = (fun i => from_source i out) <$> seq 0 n) as Heq.
    { apply list_fmap_ext. intros k i Hi.
      apply lookup_seq in Hi as [-> Hi]. unfold from_source.
      rewrite list_filter_filter. f_equal. apply list_filter_iff.
      intros p. simpl. lia. }
    rewrite <-Heq. apply IH.
    intros p [Hp Hin]%list_elem_of_filter.
    specialize (Hlt p Hin). lia.
Qed.

(** ** The loop of heapq.merge *)

Section MergeLoop.
Context `{Collaborators}.

Lemma drain_failure g f :
  (drain g).2 = Raised f → f = ValueError ∨ f = InvalidJSON.
Proof.
  unfold drain. intros Hf.
  destruct (drain_loop_positions (g_name g) (g_rest g) (line_number g))
    as (ks & _ & _ & _ & _ & Hfail).
  destruct (Hfail f Hf) as (k & l & ts & json & _ & _ & [[_ ->]|(_ & _ & ->)]).
  - by left.
  - by right.
Qed.

(** What the loop yields from a heap of entries built by [gen], one per
    source: for each source a prefix of what the source has still to
    give — all of it when the loop ends with every source exhausted —,
    in the order of the timestamps when each source is in that order.  A
    failure is the failure of one of the sources. *)
Lemma merge_loop_spec fuel : ∀ h out o,
  (heap_size h ≤ fuel)%nat →
  Forall (fun x => decoded (value x)) h →
  NoDup (order <$> h) →
  merge_loop fuel h = (out, o) →
  o ≠ OutOfFuel ∧
  (∀ e, e ∈ h →
     from_source (order e) out `prefix_of` value e :: (drain (next e)).1) ∧
  (o = Exhausted →
   ∀ e, e ∈ h → from_source (order e) out = value e :: (drain (next e)).1) ∧
  (∀ i, i ∉ order <$> h → from_source i out = []) ∧
  (∀ f, o = Raised f → ∃ e, e ∈ h ∧ (drain (next e)).2 = Raised f) ∧
  ((∀ e, e ∈ h → (drain (next e)).2 = Exhausted) → o = Exhausted) ∧
  ((∀ e, e ∈ h →
      StronglySorted by_timestamp (value e :: (drain (next e)).1)) →
   StronglySorted by_timestamp out.*1 ∧
   ∀ b, (∀ e, e ∈ h → (b <= timestamp (value e))%Z) →
        Forall (fun v => (b <= timestamp v)%Z) out.*1).
Proof.
  induction fuel as [|fuel IH]; intros h out o Hfuel Hdec Hnd Hloop.
  all: destruct h as [|e h]; simpl in Hloop.
  1,3: injection Hloop as <- <-;
       (split; [done|]); (split; [by intros e' ?%elem_of_nil|]);
       (split; [by intros _ e' ?%elem_of_nil|]); (split; [done|]);
       (split; [done|]); (split; [done|]); intros _;
       (split; [constructor|]); intros; constructor.
  { unfold heap_size in Hfuel. simpl in Hfuel. lia. }
  destruct (select_min_inr h e Hdec Hnd) as (s & others & Hsel).
  rewrite Hsel in Hloop.
  pose proof (select_min_perm _ _ _ _ Hsel) as Hperm.
  pose proof (select_min_least _ _ _ _ Hsel) as Hleast.
  rewrite <-Hperm in Hdec, Hnd.
  assert (heap_size (s :: others) ≤ S fuel)%nat as Hsize.
  { unfold heap_size in *. by rewrite Hperm. }
  setoid_rewrite <-Hperm. setoid_rewrite <-Hperm in Hleast.
  clear Hsel Hperm Hfuel e h.
  apply Forall_cons in Hdec as [Hs Hdec].
  simpl in Hnd. apply NoDup_cons in Hnd as [Hfresh Hnd].
  assert (∀ x, x ∈ others → order x ≠ order s) as Hother.
  { intros x Hx Heq. apply Hfresh. rewrite <-Heq.
    apply list_elem_of_fmap. by exists x. }
  unfold heap_size in Hsize. simpl in Hsize.
  pose proof (drain_gen_next (next s)) as Hdrain.
  destruct (gen_next (next s)) as [v g| |f] eqn:Hnext.
  - (* the source of [s] yields [v] *)
    destruct (gen_next_Yield _ _ _ Hnext) as (Hv & _ & Hshorter).
    destruct (merge_loop fuel _) as [out' o'] eqn:Hrec.
    injection Hloop as <- <-.
    apply IH in Hrec
      as (Hfuel & Hpre & Hall & Hnone & Hfail & Hdone & Hsorted).
    2:{ unfold heap_size. simpl. lia. }
    2:{ by constructor. }
    2:{ simpl. by apply NoDup_cons. }
    set (new := {| value := v; order := order s; next := g |}) in *.
    split; [done|]. split.
    { intros x [->|Hx]%elem_of_cons.
      - rewrite from_source_cons_same, Hdrain. apply prefix_cons.
        apply (Hpre new), list_elem_of_here.
      - rewrite from_source_cons_other by by apply Hother.
        by apply Hpre, list_elem_of_further. }
    split.
    { intros Ho x [->|Hx]%elem_of_cons.
      - rewrite from_source_cons_same, Hdrain. f_equal.
        apply (Hall Ho new), list_elem_of_here.
      - rewrite from_source_cons_other by by apply Hother.
        by apply Hall, list_elem_of_further. }
    split.
    { intros i [Hi Hnotin]%not_elem_of_cons.
      rewrite from_source_cons_other by done.
      apply Hnone. simpl. by apply not_elem_of_cons. }
    split.
    { intros f Hf. destruct (Hfail f Hf) as (x & [->|Hx]%elem_of_cons & Hxf).
      - exists s. split; [apply list_elem_of_here|]. by rewrite Hdrain.
      - exists x. split; [by apply list_elem_of_further|done]. }
    split.
    { intros Hex. apply Hdone. intros x [->|Hx]%elem_of_cons.
      - specialize (Hex s (list_elem_of_here _ _)). by rewrite Hdrain in Hex.
      - by apply Hex, list_elem_of_further. }
    intros Hsrt.
    assert (StronglySorted by_timestamp (value s :: v :: (drain g).1)) as Hss.
    { specialize (Hsrt s (list_elem_of_here _ _)). by rewrite Hdrain in Hsrt. }
    apply StronglySorted_inv in Hss as [Hss Hsv].
    destruct Hsorted as [Hout Hbound].
    { intros x [->|Hx]%elem_of_cons; [done|].
      by apply Hsrt, list_elem_of_further. }
    assert (Forall (fun w => (timestamp (value s) <= timestamp w)%Z) out'.*1)
      as Hafter.
    { apply Hbound. intros x [->|Hx]%elem_of_cons.
      - by apply Forall_cons in Hsv as [Hsv _].
      - by apply Hleast, list_elem_of_further. }
    split.
    + by constructor.
    + intros b Hb. constructor.
      * apply Hb, list_elem_of_here.
      * specialize (Hb s (list_elem_of_here _ _)).
        eapply Forall_impl; [exact Hafter|]. simpl. intros w. lia.
  - (* the source of [s] is exhausted *)
    destruct (merge_loop fuel others) as [out' o'] eqn:Hrec.
    injection Hloop as <- <-.
    apply IH in Hrec
      as (Hfuel & Hpre & Hall & Hnone & Hfail & Hdone & Hsorted);
      [|unfold heap_size; lia|done|done].
    split; [done|]. split.
    { intros x [->|Hx]%elem_of_cons.
      - rewrite from_source_cons_same, Hdrain, Hnone; done.
      - rewrite from_source_cons_other by by apply Hother. by apply Hpre. }
    split.
    { intros Ho x [->|Hx]%elem_of_cons.
      - rewrite from_source_cons_same, Hdrain, Hnone; done.
      - rewrite from_source_cons_other by by apply Hother. by apply Hall. }
    split.
    { intros i [Hi Hnotin]%not_elem_of_cons.
      rewrite from_source_cons_other by done. by apply Hnone. }
    split.
    { intros f Hf. destruct (Hfail f Hf) as (x & Hx & Hxf).
      exists x. split; [by apply list_elem_of_further|done]. }
    split.
    { intros Hex. apply Hdone. intros x Hx.
      by apply Hex, list_elem_of_further. }
    intros Hsrt. destruct Hsorted as [Hout Hbound].
    { intros x Hx. by apply Hsrt, list_elem_of_further. }
    assert (Forall (fun w => (timestamp (value s) <= timestamp w)%Z) out'.*1)
      as Hafter.
    { apply Hbound. intros x Hx. by apply Hleast, list_elem_of_further. }
    split.
    + by constructor.
    + intros b Hb. constructor.
      * apply Hb, list_elem_of_here.
      * specialize (Hb s (list_elem_of_here _ _)).
        eapply Forall_impl; [exact Hafter|]. simpl. intros w. lia.
  - (* the source of [s] raises *)
    injection Hloop as <- <-.
    split; [done|]. split.
    { intros x [->|Hx]%elem_of_cons.
      - by rewrite from_source_cons_same, Hdrain.
      - rewrite from_source_cons_other by by apply Hother.
        apply prefix_nil. }
    split; [done|]. split.
    { intros i [Hi Hnotin]%not_elem_of_cons.
      by rewrite from_source_cons_other. }
    split.
    { intros f' [= <-]. exists s. split; [apply list_elem_of_here|].
      by rewrite Hdrain. }
    split.
    { intros Hex. specialize (Hex s (list_elem_of_here _ _)).
      by rewrite Hdrain in Hex. }
    intros _. split.
    + repeat constructor.
    + intros b Hb. repeat constructor. apply Hb, list_elem_of_here.
Qed.

End MergeLoop.

(** ** heapq.merge from its first line to its last *)

Section HeapqMerge.
Context `{Collaborators}.

(** The heap after the first loop: one entry for each source that has
    something to give, at the position of the source. *)
Lemma merge_init_spec its : ∀ n,
  match merge_init n its with
  | inr h =>
      Forall (fun x => decoded (value x)) h ∧
      NoDup (order <$> h) ∧
      (∀ e, e ∈ h →
         ∃ i g, its !! i = Some g ∧ order e = (n + i)%nat ∧
                drain g = (value e :: (drain (next e)).1,
                           (drain (next e)).2)) ∧
      (∀ i g, its !! i = Some g → (n + i)%nat ∉ order <$> h →
              drain g = ([], Exhausted))
  | inl f => ∃ g, g ∈ its ∧ (drain g).2 = Raised f
  end.
Proof.
  induction its as [|it its IH]; intros n; simpl.
  { split; [done|]. split; [constructor|].
    split; [by intros e ?%elem_of_nil|]. intros i g Hi.
    by rewrite lookup_nil in Hi. }
  pose proof (drain_gen_next it) as Hdrain.
  specialize (IH (S n)).
  destruct (gen_next it) as [v g| |f] eqn:Hnext.
  - destruct (merge_init (S n) its) as [f|h].
    { destruct IH as (g' & Hin & Hf). exists g'.
      split; [by apply list_elem_of_further|done]. }
    destruct IH as (Hdec & Hnd & Hmem & Habsent).
    destruct (gen_next_Yield _ _ _ Hnext) as (Hv & _).
    split; [by constructor|]. split.
    { simpl. apply NoDup_cons. split; [|done].
      intros (e & Heq & (i & g' & _ & Hord & _)%Hmem)%list_elem_of_fmap.
      lia. }
    split.
    { intros e [->|He]%elem_of_cons.
      - exists 0%nat, it. simpl. split; [done|]. split; [lia|done].
      - destruct (Hmem e He) as (i & g' & Hi & Hord & Hd).
        exists (S i), g'. split; [done|]. split; [lia|done]. }
    intros [|i] g' Hi Hnotin; simpl in *.
    + apply not_elem_of_cons in Hnotin as [Hne _]. lia.
    + apply not_elem_of_cons in Hnotin as [_ Hnotin].
      apply (Habsent i g' Hi). intros Hin. apply Hnotin.
      rewrite <-Nat.add_succ_comm. exact Hin.
  - destruct (merge_init (S n) its) as [f|h].
    { destruct IH as (g' & Hin & Hf). exists g'.
      split; [by apply list_elem_of_further|done]. }
    destruct IH as (Hdec & Hnd & Hmem & Habsent).
    split; [done|]. split; [done|]. split.
    { intros e He. destruct (Hmem e He) as (i & g' & Hi & Hord & Hd).
      exists (S i), g'. split; [done|]. split; [lia|done]. }
    intros [|i] g' Hi Hnotin; simpl in *.
    + by injection Hi as <-.
    + apply (Habsent i g' Hi). intros Hin. apply Hnotin.
      rewrite <-Nat.add_succ_comm. exact Hin.
  - exists it. split; [apply list_elem_of_here|]. by rewrite Hdrain.
Qed.

Lemma heapq_merge_spec its out o :
  heapq_merge its = (out, o) →
  o ≠ OutOfFuel ∧ o ≠ Raised TypeError ∧
  (∀ i g, its !! i = Some g → from_source i out `prefix_of` (drain g).1) ∧
  (o = Exhausted →
   ∀ i g, its !! i = Some g → from_source i out = (drain g).1) ∧
  (∀ p, p ∈ out → (p.2 < length its)%nat) ∧
  (∀ f, o = Raised f → ∃ g, g ∈ its ∧ (drain g).2 = Raised f) ∧
  ((∀ g, g ∈ its → (drain g).2 = Exhausted) → o = Exhausted) ∧
  ((∀ g, g ∈ its → StronglySorted by_timestamp (drain g).1) →
   StronglySorted by_timestamp out.*1).
Proof.
  unfold heapq_merge. pose proof (merge_init_spec its 0) as Hinit.
  destruct (merge_init 0 its) as [f|h].
  { intros [= <- <-]. destruct Hinit as (g & Hin & Hf).
    split; [done|]. split.
    { intros [= ->]. by destruct (drain_failure g _ Hf). }
    split; [intros; apply prefix_nil|]. split; [done|].
    split; [by intros p ?%elem_of_nil|].
    split; [intros f' [= <-]; by exists g|].
    split; [|constructor].
    intros Hall. specialize (Hall g Hin). congruence. }
  destruct Hinit as (Hdec & Hnd & Hmem & Habsent). intros Hloop.
  destruct (merge_loop_spec _ _ _ _ (Nat.le_refl _) Hdec Hnd Hloop)
    as (Hfuel & Hpre & Hall & Hnone & Hfail & Hdone & Hsorted).
  assert (∀ i g, its !! i = Some g →
            (∃ e, e ∈ h ∧ order e = i ∧
                  drain g = (value e :: (drain (next e)).1,
                             (drain (next e)).2)) ∨
            ((i ∉ order <$> h) ∧ drain g = ([], Exhausted))) as Hcases.
  { intros i g Hi. destruct (decide (i ∈ order <$> h)) as [Hin|Hnotin].
    - left. apply list_elem_of_fmap in Hin as (e & -> & He).
      exists e. split; [done|]. split; [done|].
      destruct (Hmem e He) as (i' & g' & Hi' & Hord & Hd).
      simpl in Hord. rewrite Hord in Hi. congruence.
    - right. split; [done|]. by apply (Habsent i g Hi). }
  split; [done|]. split.
  { intros ->. destruct (Hfail _ eq_refl) as (e & He & Hf).
    by destruct (drain_failure _ _ Hf). }
  split.
  { intros i g Hi.
    destruct (Hcases i g Hi) as [(e & He & <- & ->)|[Hnotin ->]].
    - by apply Hpre.
    - rewrite Hnone by done. apply prefix_nil. }
  split.
  { intros Ho i g Hi.
    destruct (Hcases i g Hi) as [(e & He & <- & ->)|[Hnotin ->]].
    - by apply Hall.
    - by apply Hnone. }
  split.
  { intros [v i] Hp. simpl.
    destruct (decide (i ∈ order <$> h)) as [Hin|Hnotin].
    - apply list_elem_of_fmap in Hin as (e & -> & He).
      destruct (Hmem e He) as (i' & g' & Hi' & -> & _). simpl.
      by apply lookup_lt_Some in Hi'.
    - apply elem_of_from_source in Hp. rewrite (Hnone i Hnotin) in Hp.
      by apply elem_of_nil in Hp. }
  split.
  { intros f Hf. destruct (Hfail f Hf) as (e & He & Hef).
    destruct (Hmem e He) as (i & g & Hi & _ & Hd).
    exists g. split; [by eapply list_elem_of_lookup_2|]. by rewrite Hd. }
  split.
  { intros Hex. apply Hdone. intros e He.
    destruct (Hmem e He) as (i & g & Hi & _ & Hd).
    specialize (Hex g (list_elem_of_lookup_2 _ _ _ Hi)). by rewrite Hd in Hex. }
  intros Hsrt. apply Hsorted. intros e He.
  destruct (Hmem e He) as (i & g & Hi & _ & Hd).
  specialize (Hsrt g (list_elem_of_lookup_2 _ _ _ Hi)). by rewrite Hd in Hsrt.
Qed.

End HeapqMerge.

(** ** merge_log_streams *)

Section MergeLogStreams.
Context `{Collaborators}.

Lemma lookup_gen_Some (streams : list Stream) (i : nat) g :
  (gen <$> streams) !! i = Some g →
  ∃ s, streams !! i = Some s ∧ g = gen s.
Proof.
  rewrite list_lookup_fmap. destruct (streams !! i) as [s|]; [|done].
  intros [= <-]. by exists s.
Qed.

Lemma elem_of_gen (streams : list Stream) g :
  g ∈ gen <$> streams → ∃ s, s ∈ streams ∧ g = gen s.
Proof. intros (s & -> & Hs)%list_elem_of_fmap. by exists s. Qed.

Lemma merge_log_streams_spec (streams : list Stream) out o :
  heapq_merge (gen <$> streams) = (out, o) →
  merge_log_streams streams = (out.*1, o).
Proof. unfold merge_log_streams. by intros ->. Qed.

Lemma sources_by_position (streams : list Stream) out :
  (∀ i s, streams !! i = Some s → from_source i out = (drain (gen s)).1) →
  (fun i => from_source i out) <$> seq 0 (length streams)
  = (fun s => (drain (gen s)).1) <$> streams.
Proof.
  intros Hsource. apply list_eq. intros i. rewrite !list_lookup_fmap.
  destruct (streams !! i) as [s|] eqn:Hi; simpl.
  - rewrite lookup_seq_lt by by eapply lookup_lt_Some. simpl.
    f_equal. by apply Hsource.
  - rewrite lookup_seq_ge; [done|]. by apply lookup_ge_None.
Qed.

(** C4: when every source gives its events to the end and in the order
    of their timestamps, the merged sequence is in the order of the
    timestamps, what it has from each source is the sequence of that
    source, in the order of the source, and so it is a permutation of the
    sequences of the sources put together. *)
Theorem merge_sorted_order_preserving (streams : list Stream) :
  (∀ s, s ∈ streams → (drain (gen s)).2 = Exhausted) →
  (∀ s, s ∈ streams → StronglySorted by_timestamp (drain (gen s)).1) →
  ∃ out,
    heapq_merge (gen <$> streams) = (out, Exhausted) ∧
    merge_log_streams streams = (out.*1, Exhausted) ∧
    StronglySorted by_timestamp out.*1 ∧
    (∀ i s, streams !! i = Some s →
            from_source i out = (drain (gen s)).1) ∧
    (∀ p, p ∈ out → (p.2 < length streams)%nat) ∧
    out.*1 ≡ₚ concat ((fun s => (drain (gen s)).1) <$> streams).
Proof.
  intros Hex Hsrt.
  destruct (heapq_merge (gen <$> streams)) as [out o] eqn:Hmerge.
  pose proof (merge_log_streams_spec _ _ _ Hmerge) as Hstreams.
  apply heapq_merge_spec in Hmerge
    as (_ & _ & _ & Hall & Hlt & _ & Hdone & Hsorted).
  rewrite length_fmap in Hlt.
  assert (o = Exhausted) as ->.
  { apply Hdone. intros g (s & Hs & ->)%elem_of_gen. by apply Hex. }
  assert (∀ i s, streams !! i = Some s →
                 from_source i out = (drain (gen s)).1) as Hsource.
  { intros i s Hi. apply (Hall eq_refl). by rewrite list_lookup_fmap, Hi. }
  exists out. split; [done|]. split; [done|]. split.
  { apply Hsorted. intros g (s & Hs & ->)%elem_of_gen. by apply Hsrt. }
  split; [done|]. split; [done|].
  rewrite (from_source_permutation (length streams) out Hlt).
  by rewrite (sources_by_position streams out Hsource).
Qed.

(** C9: on the entries [heapq.merge] holds — lines built by [gen], one
    entry per source — a comparison never raises, and of two entries
    exactly one is before the other, in an order that is transitive: by
    timestamp, then location, then text, then position of the source.  So
    the least entry is determined by the entries alone, also when
    timestamps are equal, and the merge does not end with a comparison
    error on any input; it goes to the end when the sources do. *)
Theorem merge_ties_deterministic :
  (∀ a b, decoded (value a) → decoded (value b) → order a ≠ order b →
     ∃ c, entry_lt a b = inr c ∧ entry_lt b a = inr (negb c) ∧
          (c = true ↔ entry_before a b)) ∧
  (∀ a b c, entry_before a b → entry_before b c → entry_before a c) ∧
  (∀ streams : list Stream,
     (merge_log_streams streams).2 ≠ Raised TypeError ∧
     (merge_log_streams streams).2 ≠ OutOfFuel) ∧
  (∀ streams : list Stream,
     (∀ s, s ∈ streams → (drain (gen s)).2 = Exhausted) →
     (merge_log_streams streams).2 = Exhausted ∧
     length (merge_log_streams streams).1
       = length (concat ((fun s => (drain (gen s)).1) <$> streams))).
Proof.
  split.
  { intros a b Ha Hb Hne.
    destruct (entry_lt_decides a b Ha Hb Hne) as (c & Hc & Hiff).
    destruct (entry_lt_decides b a Hb Ha) as (c' & Hc' & Hiff'); [done|].
    exists c. split; [done|]. split; [|done]. rewrite Hc'. f_equal.
    destruct (entry_before_total a b Hne) as [[Hab Hba]|[Hba Hab]].
    - assert (c = true) as -> by by apply Hiff. simpl.
      destruct c'; [|done]. destruct Hba. by apply Hiff'.
    - destruct c; [destruct Hab; by apply Hiff|]. simpl. by apply Hiff'. }
  split; [apply entry_before_trans|].
  split.
  { intros streams.
    destruct (heapq_merge (gen <$> streams)) as [out o] eqn:Hmerge.
    rewrite (merge_log_streams_spec _ _ _ Hmerge). simpl.
    by apply heapq_merge_spec in Hmerge as (? & ? & _). }
  intros streams Hex.
  destruct (heapq_merge (gen <$> streams)) as [out o] eqn:Hmerge.
  rewrite (merge_log_streams_spec _ _ _ Hmerge). simpl.
  pose proof Hmerge as (_ & _ & _ & Hall & Hlt & _ & Hdone & _)%heapq_merge_spec.
  rewrite length_fmap in Hlt.
  assert (o = Exhausted) as ->.
  { apply Hdone. intros g (s & Hs & ->)%elem_of_gen. by apply Hex. }
  split; [done|].
  rewrite (from_source_permutation (length streams) out Hlt).
  rewrite (sources_by_position streams out); [done|].
  intros i s Hi. apply (Hall eq_refl). by rewrite list_lookup_fmap, Hi.
Qed.

(** C10: a line that does not match the pattern is passed over: it is not
    yielded and it is no failure, and the counter goes on, so that the
    location of every line yielded is the name of its file and its
    position in the file, counted from 1.  [ks] are the positions (from
    0) of the lines a file yields.  The same holds of every line in the
    merged sequence, and a failure of the merge is the failure to decode
    a line that does match. *)
Theorem nonmatching_lines_skipped :
  (∀ s, ∃ ks : list nat,
     StronglySorted lt ks ∧
     Forall2 (fun k v =>
                lines s !! k = Some (line v) ∧
                location v = (name s ++ ":" ++ pretty (S k))%string ∧
                decoded v)
             ks (drain (gen s)).1 ∧
     (∀ k l, lines s !! k = Some l → line_pat_match l = None → k ∉ ks) ∧
     ((drain (gen s)).2 = Exhausted →
      ∀ k l, lines s !! k = Some l → line_pat_match l ≠ None → k ∈ ks) ∧
     (∀ f, (drain (gen s)).2 = Raised f →
        ∃ k l ts json,
          lines s !! k = Some l ∧ line_pat_match l = Some (ts, json) ∧
          (parse_log_timestamp ts = None ∧ f = ValueError ∨
           is_Some (parse_log_timestamp ts) ∧ json_loads json = None ∧
           f = InvalidJSON))) ∧
  (∀ (streams : list Stream) v,
     v ∈ (merge_log_streams streams).1 →
     ∃ s k, s ∈ streams ∧ lines s !! k = Some (line v) ∧
            location v = (name s ++ ":" ++ pretty (S k))%string ∧
            line_pat_match (line v) ≠ None) ∧
  (∀ (streams : list Stream) f,
     (merge_log_streams streams).2 = Raised f →
     ∃ s k l ts json,
       s ∈ streams ∧ lines s !! k = Some l ∧
       line_pat_match l = Some (ts, json) ∧
       (parse_log_timestamp ts = None ∧ f = ValueError ∨
        is_Some (parse_log_timestamp ts) ∧ json_loads json = None ∧
        f = InvalidJSON)).
Proof.
  assert (∀ s, ∃ ks : list nat,
     StronglySorted lt ks ∧
     Forall2 (fun k v =>
                lines s !! k = Some (line v) ∧
                location v = (name s ++ ":" ++ pretty (S k))%string ∧
                decoded v)
             ks (drain (gen s)).1 ∧
     (∀ k l, lines s !! k = Some l → line_pat_match l = None → k ∉ ks) ∧
     ((drain (gen s)).2 = Exhausted →
      ∀ k l, lines s !! k = Some l → line_pat_match l ≠ None → k ∈ ks) ∧
     (∀ f, (drain (gen s)).2 = Raised f →
        ∃ k l ts json,
          lines s !! k = Some l ∧ line_pat_match l = Some (ts, json) ∧
          (parse_log_timestamp ts = None ∧ f = ValueError ∨
           is_Some (parse_log_timestamp ts) ∧ json_loads json = None ∧
           f = InvalidJSON))) as Hgen.
  { intros s. apply (drain_loop_positions (name s) (lines s) 0). }
  split; [exact Hgen|]. split.
  - intros streams v.
    destruct (heapq_merge (gen <$> streams)) as [out o] eqn:Hmerge.
    rewrite (merge_log_streams_spec _ _ _ Hmerge). simpl.
    intros ([v' i] & -> & Hin)%list_elem_of_fmap. simpl.
    apply heapq_merge_spec in Hmerge as (_ & _ & Hpre & _ & Hlt & _).
    pose proof (Hlt _ Hin) as Hi. simpl in Hi.
    apply lookup_lt_is_Some_2 in Hi as [g Hg].
    pose proof (Hpre i g Hg) as Hprefix.
    apply lookup_gen_Some in Hg as (s & Hs & ->).
    apply elem_of_from_source in Hin.
    pose proof (elem_of_prefix _ _ _ Hin Hprefix) as Hv.
    destruct (Hgen s) as (ks & _ & Hall & _).
    apply list_elem_of_lookup in Hv as (j & Hj).
    destruct (Forall2_lookup_r _ _ _ _ _ Hall Hj)
      as (k & _ & Hk & Hloc & (ts & json & Hm & _)).
    exists s, k. split; [by eapply list_elem_of_lookup_2|].
    split; [done|]. split; [done|]. by rewrite Hm.
  - intros streams f.
    destruct (heapq_merge (gen <$> streams)) as [out o] eqn:Hmerge.
    rewrite (merge_log_streams_spec _ _ _ Hmerge). simpl. intros ->.
    apply heapq_merge_spec in Hmerge as (_ & _ & _ & _ & _ & Hfail & _).
    destruct (Hfail f eq_refl) as (g & (s & Hs & ->)%elem_of_gen & Hf).
    destruct (Hgen s) as (ks & _ & _ & _ & _ & Hraise).
    destruct (Hraise f Hf) as (k & l & ts & json & Hk & Hm & Hcase).
    by exists s, k, l, ts, json.
Qed.

End MergeLogStreams.

Lemma merge_sorted_order_preserving_witness :
  ∃ out,
    @merge_log_streams sample [stream_j; stream_c] = (out, Exhausted) ∧
    StronglySorted by_timestamp out ∧
    length out = 3%nat.
Proof.
  destruct (@merge_sorted_order_preserving sample [stream_j; stream_c])
    as (out & _ & Hmerge & Hsorted & _ & _ & Hperm).
  - intros s [-> | ->%list_elem_of_singleton]%elem_of_cons;
      vm_compute; reflexivity.
  - intros s [-> | ->%list_elem_of_singleton]%elem_of_cons.
    + set (l := (@drain sample (gen stream_j)).1). vm_compute in l.
      subst l. repeat constructor; unfold by_timestamp; simpl; lia.
    + set (l := (@drain sample (gen stream_c)).1). vm_compute in l.
      subst l. repeat constructor.
  - exists out.*1. split; [done|]. split; [done|].
    by rewrite Hperm.
Defined.

Lemma merge_ties_deterministic_witness :
  (@merge_log_streams sample [stream_c; stream_a]).2 = Exhausted ∧
  length (@merge_log_streams sample [stream_c; stream_a]).1 = 2%nat.
Proof.
  destruct (@merge_ties_deterministic sample) as (_ & _ & _ & Hends).
  destruct (Hends [stream_c; stream_a]) as [Hend Hlen].
  - intros s [-> | ->%list_elem_of_singleton]%elem_of_cons;
      vm_compute; reflexivity.
  - split; [done|]. by rewrite Hlen.
Defined.

Lemma nonmatching_lines_skipped_witness :
  line_j ∈ (@merge_log_streams sample [stream_j]).1 ∧
  @line_pat_match sample "junk" = None ∧
  ∃ k, lines stream_j !! k = Some (line line_j) ∧
       location line_j = ("j.log:" ++ pretty (S k))%string.
Proof.
  destruct (@nonmatching_lines_skipped sample) as (_ & Hmerged & _).
  assert (line_j ∈ (@merge_log_streams sample [stream_j]).1) as Hin.
  { vm_compute. apply list_elem_of_here. }
  split; [done|]. split; [reflexivity|].
  destruct (Hmerged [stream_j] line_j Hin) as (s & k & Hs & Hk & Hloc & _).
  apply list_elem_of_singleton in Hs as ->. by exists k.
Defined.

(** * Further properties *)

(** ** update_state: failure, and how updates compose *)

Section UpdateStateMore.
Context `{Collaborators}.

Lemma setitem_inl {A : Type} (l : list A) i x :
  ¬ (i < length l)%nat → setitem l i x = inl IndexError.
Proof. intros Hi. unfold setitem. by destruct (decide (i < length l)%nat). Qed.

(** A call that returns had a [server_id] within the three tuples. *)
Lemma update_state_inr_inv s e s' :
  update_state s e = inr s' →
  (LogEvent.server_id e < length (SystemState.log s))%nat ∧
  (LogEvent.server_id e < length (SystemState.state s))%nat ∧
  (LogEvent.server_id e < length (SystemState.commitPoint s))%nat.
Proof.
  unfold update_state, setitem.
  destruct (decide (_ < length (SystemState.log s))%nat); [|done].
  destruct (decide (_ < length (SystemState.state s))%nat); [|done].
  destruct (decide (_ < length (SystemState.commitPoint s))%nat); [|done].
  done.
Qed.

Lemma py_setitem_inl l items i v (σ : gmap positive PyObj) :
  σ !! l = Some (PyList items) → ¬ (i < length items)%nat →
  py_setitem l i v σ = inl IndexError.
Proof.
  intros Hl Hi. unfold py_setitem. rewrite Hl.
  by destruct (decide (i < length items)%nat).
Qed.

(** X1: [update_state] raises nothing but [IndexError], and raises it
    exactly when [server_id] is not a position of one of the three
    tuples; on the store of objects the call raises in the same cases. *)
Theorem update_state_raises_out_of_range s e :
  (∀ f, update_state s e = inl f → f = IndexError) ∧
  (update_state s e = inl IndexError ↔
   ¬ ((LogEvent.server_id e < length (SystemState.log s))%nat ∧
      (LogEvent.server_id e < length (SystemState.state s))%nat ∧
      (LogEvent.server_id e < length (SystemState.commitPoint s))%nat)) ∧
  (∀ (σ : gmap positive PyObj) current_state,
     snapshot_at σ current_state = Some s →
     update_state s e = inl IndexError →
     update_state_heap current_state e σ = inl IndexError).
Proof.
  assert (update_state s e = inl IndexError ↔
   ¬ ((LogEvent.server_id e < length (SystemState.log s))%nat ∧
      (LogEvent.server_id e < length (SystemState.state s))%nat ∧
      (LogEvent.server_id e < length (SystemState.commitPoint s))%nat))
    as Hiff.
  { split.
    - intros Hfail (Hlog & Hstate & Hcp).
      by rewrite update_state_inr in Hfail.
    - intros Hout. destruct (update_state s e) as [f|s'] eqn:Hu.
      + revert Hu. unfold update_state, setitem.
        repeat (destruct (decide _); simpl; try done); by intros [= <-].
      + by apply update_state_inr_inv in Hu. }
  split.
  { unfold update_state, setitem. intros f.
    repeat (destruct (decide _); simpl; try done); by intros [= <-]. }
  split; [done|].
  intros σ current_state Hs Hfail. apply Hiff in Hfail.
  pose proof Hs as (lg & st & cp & logs & states & cps & Hl & Hlg & Hlogs
                    & Hst & Hstates & Hcpl & Hcps)%snapshot_at_Some.
  pose proof (mapM_length_eq _ _ _ Hlogs) as Hlen1.
  pose proof (mapM_length_eq _ _ _ Hstates) as Hlen2.
  pose proof (mapM_length_eq _ _ _ Hcps) as Hlen3.
  unfold update_state_heap, hbind at 1, attributes. rewrite Hl.
  destruct (py_list_inr lg logs σ Hlg) as (l1 & E1 & F1).
  unfold hbind at 1. rewrite E1. unfold hbind at 1.
  destruct (decide (LogEvent.server_id e < length logs)%nat) as [Hi1|Hi1].
  2:{ erewrite py_setitem_inl; [done|apply lookup_insert_eq|done]. }
  erewrite py_setitem_inr; [|apply lookup_insert_eq|done].
  rewrite insert_insert_eq.
  set (σ1 := <[l1 := _]> σ).
  assert (σ ⊆ σ1) as S1 by by apply insert_subseteq.
  destruct (py_list_inr st states σ1 (lookup_weaken _ _ _ _ Hst S1))
    as (l2 & E2 & F2).
  unfold hbind at 1. rewrite E2. unfold hbind at 1.
  destruct (decide (LogEvent.server_id e < length states)%nat) as [Hi2|Hi2].
  2:{ erewrite py_setitem_inl; [done|apply lookup_insert_eq|done]. }
  erewrite py_setitem_inr; [|apply lookup_insert_eq|done].
  rewrite insert_insert_eq.
  set (σ2 := <[l2 := _]> σ1).
  assert (σ1 ⊆ σ2) as S2 by by apply insert_subseteq.
  destruct (py_list_inr cp cps σ2
              (lookup_weaken _ _ _ _ (lookup_weaken _ _ _ _ Hcpl S1) S2))
    as (l3 & E3 & F3).
  unfold hbind at 1. rewrite E3. unfold hbind at 1.
  destruct (decide (LogEvent.server_id e < length cps)%nat) as [Hi3|Hi3].
  2:{ erewrite py_setitem_inl; [done|apply lookup_insert_eq|done]. }
  destruct Hfail. lia.
Qed.

(** X2: of two events of one server applied one after the other only the
    second is seen: the snapshot is the one the second event alone
    gives. *)
Theorem update_state_same_server_overwrites s e1 e2 s1 :
  update_state s e1 = inr s1 →
  LogEvent.server_id e1 = LogEvent.server_id e2 →
  update_state s1 e2 = update_state s e2 ∧
  ∃ s2, update_state s1 e2 = inr s2.
Proof.
  intros Hu Hid.
  pose proof (update_state_inr_inv _ _ _ Hu) as (Hlog & Hstate & Hcp).
  rewrite update_state_inr in Hu by done. injection Hu as <-.
  rewrite (update_state_inr s e2) by (rewrite <-Hid; done).
  rewrite update_state_inr by (simpl; rewrite !length_insert, <-Hid; done).
  simpl. rewrite Hid, !list_insert_insert_eq. split; [done|]. by eexists.
Qed.

(** X3: events of two different servers can be applied in either order:
    the per-server tuples and [n_servers] come out the same, and the
    action, the global term and the location are those of the event
    applied last. *)
Theorem update_state_servers_commute s e1 e2 :
  LogEvent.server_id e1 ≠ LogEvent.server_id e2 →
  (∃ s1, update_state s e1 = inr s1) →
  (∃ s2, update_state s e2 = inr s2) →
  ∃ s12 s21,
    (letE s1 := update_state s e1 in update_state s1 e2) = inr s12 ∧
    (letE s2 := update_state s e2 in update_state s2 e1) = inr s21 ∧
    SystemState.log s12 = SystemState.log s21 ∧
    SystemState.state s12 = SystemState.state s21 ∧
    SystemState.commitPoint s12 = SystemState.commitPoint s21 ∧
    SystemState.n_servers s12 = SystemState.n_servers s21 ∧
    SystemState.action s12 = LogEvent.action e2 ∧
    SystemState.action s21 = LogEvent.action e1 ∧
    SystemState.globalCurrentTerm s12 = LogEvent.term e2 ∧
    SystemState.globalCurrentTerm s21 = LogEvent.term e1 ∧
    SystemState.serverLogLocation s12 = LogEvent.location e2 ∧
    SystemState.serverLogLocation s21 = LogEvent.location e1.
Proof.
  intros Hne [s1 H1] [s2 H2].
  pose proof (update_state_inr_inv _ _ _ H1) as (Hlog1 & Hstate1 & Hcp1).
  pose proof (update_state_inr_inv _ _ _ H2) as (Hlog2 & Hstate2 & Hcp2).
  rewrite (update_state_inr s e1), (update_state_inr s e2) by done.
  simpl.
  rewrite !update_state_inr by (simpl; rewrite !length_insert; done).
  simpl. eexists _, _. split; [done|]. split; [done|]. simpl.
  rewrite !(list_insert_insert_ne _ (LogEvent.server_id e2)
                                    (LogEvent.server_id e1)) by done.
  done.
Qed.

End UpdateStateMore.

Lemma update_state_raises_out_of_range_witness :
  @update_state_heap sample 4%positive (sample_event 5) sample_store
    = inl IndexError.
Proof.
  destruct (@update_state_raises_out_of_range sample
              (@initial_state sample 2) (sample_event 5))
    as (_ & Hiff & Hheap).
  apply Hheap; [vm_compute; reflexivity|].
  apply Hiff. simpl. lia.
Defined.

Lemma update_state_same_server_overwrites_witness :
  ∃ s1 s2,
    @update_state sample (@initial_state sample 2) (sample_event 1) = inr s1 ∧
    @update_state sample s1 (sample_event 1) = inr s2 ∧
    @update_state sample s1 (sample_event 1)
      = @update_state sample (@initial_state sample 2) (sample_event 1).
Proof.
  eexists _. 
  destruct (@update_state_same_server_overwrites sample
              (@initial_state sample 2) (sample_event 1) (sample_event 1) _
              ltac:(vm_compute; reflexivity) eq_refl) as (Heq & s2 & Hs2).
  exists s2. split; [reflexivity|]. split; [exact Hs2|exact Heq].
Defined.

Lemma update_state_servers_commute_witness :
  ∃ s12 s21,
    (letE s1 := @update_state sample (@initial_state sample 2) (sample_event 0)
     in update_state s1 (sample_event 1)) = inr s12 ∧
    (letE s2 := @update_state sample (@initial_state sample 2) (sample_event 1)
     in update_state s2 (sample_event 0)) = inr s21 ∧
    SystemState.state s12 = SystemState.state s21.
Proof.
  destruct (@update_state_servers_commute sample (@initial_state sample 2)
              (sample_event 0) (sample_event 1))
    as (s12 & s21 & H12 & H21 & _ & Hstate & _).
  - simpl. lia.
  - eexists. vm_compute. reflexivity.
  - eexists. vm_compute. reflexivity.
  - by exists s12, s21.
Defined.

(** ** The trace of a run *)

Section TraceMore.
Context `{Collaborators}.

Lemma fixup_term_not_sentinel term : fixup_term term ≠ -1.
Proof. unfold fixup_term. destruct (decide (term = -1)); [done|done]. Qed.

Lemma translate_all_lookup merged : ∀ pm m es pm' m' k l,
  translate_all merged pm m = inr (es, pm', m') →
  merged !! k = Some l →
  ∃ e pm1 m1 pm2 m2,
    es !! k = Some e ∧ parse_log_line l pm1 m1 = inr (e, pm2, m2).
Proof.
  induction merged as [|l0 merged IH]; intros pm m es pm' m' k l; simpl.
  - intros _ Hk. by rewrite lookup_nil in Hk.
  - destruct (parse_log_line l0 pm m) as [f|[[e pm1] m1]] eqn:Hparse;
      simpl; [done|].
    destruct (translate_all merged pm1 m1) as [f|[[es' pm2] m2]] eqn:Hrest;
      simpl; [done|].
    intros [= <- <- <-] Hk. destruct k as [|k]; simpl in *.
    + injection Hk as <-. by exists e, pm, m, pm1, m1.
    + by eapply IH.
Qed.

(** From the chain of lemma [main_loop_chain] to the run from the
    initial state that goes to its end. *)
Lemma main_loop_initial_chain n_servers merged r' :
  main_loop merged (initial_run n_servers) = (r', Exhausted) →
  ∃ es,
    translate_all merged PortMapper.new OplogIndexMapper.new
      = inr (es, port_mapper r', oplog_index_mapper r') ∧
    length (trace r') = length es ∧
    (trace r' ++ [current_state r']) !! 0%nat
      = Some (initial_state n_servers) ∧
    (∀ i e, es !! i = Some e →
       ∃ s s', (trace r' ++ [current_state r']) !! i = Some s ∧
               (trace r' ++ [current_state r']) !! S i = Some s' ∧
               update_state s e = inr s').
Proof.
  intros Hloop.
  destruct (main_loop_chain _ _ _ _ Hloop)
    as (es & snaps & pm & m & Htr & Htrace & Hlen & Hfirst & Hchain & Hend).
  destruct (Hend eq_refl) as (Hall & -> & ->).
  simpl in Htrace, Htr, Hfirst. rewrite Htrace.
  rewrite Hall, firstn_all in Htr.
  exists es. split; [done|]. split; [done|]. split; [done|].
  intros i e Hi. destruct (Hchain i e Hi (or_intror eq_refl))
    as (s & s' & Hs & Hs' & Hu).
  exists s, s'. split; [|done]. by apply lookup_app_l_Some.
Qed.

(** X4: every snapshot of a run — the entries of the trace and the
    current state, also when the run is aborted — is for the number of
    servers the run started with: [n_servers] is that number, and the
    three per-server tuples have that length. *)
Theorem trace_snapshots_keep_shape n_servers merged r' o :
  main_loop merged (initial_run n_servers) = (r', o) →
  Forall (fun s =>
            SystemState.n_servers s = n_servers ∧
            length (SystemState.log s) = n_servers ∧
            length (SystemState.state s) = n_servers ∧
            length (SystemState.commitPoint s) = n_servers)
         (trace r' ++ [current_state r']).
Proof.
  assert (∀ merged r r' o,
            main_loop merged r = (r', o) →
            Forall (fun s =>
                      SystemState.n_servers s = n_servers ∧
                      length (SystemState.log s) = n_servers ∧
                      length (SystemState.state s) = n_servers ∧
                      length (SystemState.commitPoint s) = n_servers)
                   (trace r ++ [current_state r]) →
            Forall (fun s =>
                      SystemState.n_servers s = n_servers ∧
                      length (SystemState.log s) = n_servers ∧
                      length (SystemState.state s) = n_servers ∧
                      length (SystemState.commitPoint s) = n_servers)
                   (trace r' ++ [current_state r'])) as Hgen.
  { clear. intros merged.
    induction merged as [|l merged IH]; intros r r' o; simpl.
    - by intros [= <- <-].
    - destruct (parse_log_line l _ _) as [f|[[e pm] m]]; [by intros [= <- <-]|].
      destruct (update_state (current_state r) e) as [f|s1] eqn:Hu.
      + intros [= <- <-] Hshape. simpl.
        apply Forall_app. split; [done|].
        apply Forall_app in Hshape as [_ Hcur]. done.
      + intros Hloop Hshape. apply (IH _ _ _ Hloop). simpl.
        apply Forall_app. split; [done|].
        apply Forall_app in Hshape as [_ Hcur].
        apply Forall_singleton in Hcur as (Hn & Hlog & Hstate & Hcp).
        apply Forall_singleton.
        pose proof (update_state_inr_inv _ _ _ Hu) as (? & ? & ?).
        rewrite update_state_inr in Hu by done. injection Hu as <-.
        simpl. by rewrite !length_insert. }
  intros Hloop. apply (Hgen _ _ _ _ Hloop). simpl.
  apply Forall_singleton. simpl. by rewrite !length_replicate.
Qed.

(** X5: in a run that goes to its end, the k-th snapshot (the entries of
    the trace, then the final state) shows for every server what the
    latest of the first k events of that server reported — its log, its
    state and its commit point —, and for a server without an event so
    far what the initial state has. *)
Theorem snapshot_shows_latest_events n_servers merged r' es pm m :
  main_loop merged (initial_run n_servers) = (r', Exhausted) →
  translate_all merged PortMapper.new OplogIndexMapper.new
    = inr (es, pm, m) →
  ∀ k s i,
    (trace r' ++ [current_state r']) !! k = Some s →
    (i < n_servers)%nat →
    SystemState.log s !! i = Some (latest i LogEvent.log [] (take k es)) ∧
    SystemState.state s !! i
      = Some (latest i LogEvent.state Follower (take k es)) ∧
    SystemState.commitPoint s !! i
      = Some (latest i LogEvent.commitPoint
                {| CommitPoint.term := -1; CommitPoint.index := 0 |}
                (take k es)).
Proof.
  intros Hloop Htr.
  destruct (main_loop_initial_chain _ _ _ Hloop)
    as (es' & Htr' & Hlen & Hfirst & Hchain).
  rewrite Htr in Htr'. injection Htr' as <- _ _.
  set (full := trace r' ++ [current_state r']) in *.
  assert (length full = S (length es)) as Hfull.
  { unfold full. rewrite length_app. simpl. lia. }
  intros k. induction k as [|k IH]; intros s i Hs Hi.
  - rewrite Hfirst in Hs. injection Hs as <-. simpl.
    unfold latest. simpl. by rewrite !lookup_replicate_2.
  - assert (k < length es)%nat as Hk.
    { apply lookup_lt_Some in Hs. lia. }
    apply lookup_lt_is_Some_2 in Hk as [e He].
    destruct (Hchain k e He) as (s0 & s' & Hs0 & Hs' & Hu).
    rewrite Hs in Hs'. injection Hs' as <-.
    destruct (IH s0 i Hs0 Hi) as (Hlog & Hstate & Hcp).
    rewrite (take_S_r _ _ _ He). unfold latest in *. rewrite !foldl_snoc.
    pose proof (update_state_inr_inv _ _ _ Hu) as (? & ? & ?).
    rewrite update_state_inr in Hu by done. injection Hu as <-. simpl.
    destruct (decide (LogEvent.server_id e = i)) as [<-|Hne].
    + by rewrite !list_lookup_insert_eq.
    + by rewrite !list_lookup_insert_ne.
Qed.

(** X6: in a run that goes to its end, the snapshot after the k-th
    merged line carries the action and the location of that line, and as
    global term the term the line reports, normalized; so no snapshot
    after the initial one has the global term -1. *)
Theorem snapshot_carries_its_line n_servers merged r' k l :
  main_loop merged (initial_run n_servers) = (r', Exhausted) →
  merged !! k = Some l →
  ∃ s,
    (trace r' ++ [current_state r']) !! S k = Some s ∧
    SystemState.action s = tr_action (obj l) ∧
    SystemState.serverLogLocation s = location l ∧
    SystemState.globalCurrentTerm s = fixup_term (rm_term (tr_state (obj l))) ∧
    SystemState.globalCurrentTerm s ≠ -1.
Proof.
  intros Hloop Hk.
  destruct (main_loop_initial_chain _ _ _ Hloop)
    as (es & Htr & Hlen & Hfirst & Hchain).
  destruct (translate_all_lookup _ _ _ _ _ _ _ _ Htr Hk)
    as (e & pm1 & m1 & pm2 & m2 & He & Hparse).
  destruct (Hchain k e He) as (s0 & s' & Hs0 & Hs' & Hu).
  exists s'. split; [done|].
  pose proof (update_state_inr_inv _ _ _ Hu) as (? & ? & ?).
  rewrite update_state_inr in Hu by done. injection Hu as <-. simpl.
  apply parse_log_line_inr in Hparse
    as (index & state & _ & _ & _ & _ & ->). simpl.
  split; [done|]. split; [done|]. split; [done|].
  apply fixup_term_not_sentinel.
Qed.

End TraceMore.

Lemma trace_snapshots_keep_shape_witness :
  ∃ r' o,
    @main_loop sample [line_a; line_b] (@initial_run sample 2) = (r', o) ∧
    Forall (fun s => SystemState.n_servers s = 2%nat ∧
                     length (SystemState.log s) = 2%nat ∧
                     length (SystemState.state s) = 2%nat ∧
                     length (SystemState.commitPoint s) = 2%nat)
           (trace r' ++ [current_state r']).
Proof.
  destruct (@main_loop sample [line_a; line_b] (@initial_run sample 2))
    as [r' o] eqn:Hloop.
  exists r', o. split; [done|].
  exact (@trace_snapshots_keep_shape sample 2 [line_a; line_b] r' o Hloop).
Defined.

Lemma snapshot_shows_latest_events_witness :
  ∃ r',
    @main_loop sample [line_a; line_b] (@initial_run sample 2)
      = (r', Exhausted) ∧
    SystemState.state (current_state r') !! 1%nat = Some SPrimary ∧
    (∀ s, trace r' !! 1%nat = Some s →
          SystemState.state s !! 1%nat = Some SFollower).
Proof.
  eexists. split; [vm_compute; reflexivity|].
  match goal with
  | |- context [current_state ?r] => set (r' := r)
  end.
  assert (@main_loop sample [line_a; line_b] (@initial_run sample 2)
          = (r', Exhausted)) as Hloop by (vm_compute; reflexivity).
  destruct (@translate_all sample [line_a; line_b] PortMapper.new
              OplogIndexMapper.new) as [f|[[es pm] m]] eqn:Htr;
    [by vm_compute in Htr|].
  pose proof (@snapshot_shows_latest_events sample 2 [line_a; line_b]
                r' es pm m Hloop Htr) as Hlatest.
  vm_compute in Htr. injection Htr as <- _ _.
  split.
  - destruct (Hlatest 2%nat (current_state r') 1%nat eq_refl ltac:(lia))
      as (_ & Hstate & _). exact Hstate.
  - intros s Hs.
    destruct (Hlatest 1%nat s 1%nat) as (_ & Hstate & _); [|lia|exact Hstate].
    by apply lookup_app_l_Some.
Defined.

Lemma snapshot_carries_its_line_witness :
  ∃ r' s,
    @main_loop sample [line_a; line_b] (@initial_run sample 2)
      = (r', Exhausted) ∧
    (trace r' ++ [current_state r']) !! 2%nat = Some s ∧
    SystemState.serverLogLocation s = "b.log:1" ∧
    SystemState.globalCurrentTerm s = 0.
Proof.
  destruct (@main_loop sample [line_a; line_b] (@initial_run sample 2))
    as [r' o] eqn:Hloop.
  assert (o = Exhausted) as -> by (vm_compute in Hloop; congruence).
  destruct (@snapshot_carries_its_line sample 2 [line_a; line_b] r' 1%nat
              line_b Hloop eq_refl) as (s & Hs & _ & Hloc & Hterm & _).
  by exists r', s.
Defined.

(** ** Server ids in a run *)

Section ServerIds.
Context `{Collaborators}.

Lemma port_mapper_ok_new : port_mapper_ok PortMapper.new.
Proof.
  split; [|split]; simpl.
  - intros p i Hp. by rewrite lookup_empty in Hp.
  - intros p q i Hp. by rewrite lookup_empty in Hp.
  - apply map_size_empty.
Qed.

Lemma get_server_id_ok pm p :
  port_mapper_ok pm → port_mapper_ok (PortMapper.get_server_id p pm).2.
Proof.
  intros (Hbelow & Hinj & Hsize). unfold PortMapper.get_server_id.
  destruct (PortMapper.ids pm !! p) as [i|] eqn:Hp; simpl; [done|].
  split; [|split]; simpl.
  - intros q i. rewrite lookup_insert. case_decide as Hq.
    + intros [= <-]. lia.
    + intros Hi%Hbelow. lia.
  - intros q1 q2 i. rewrite !lookup_insert.
    case_decide as H1; case_decide as H2; try congruence.
    + intros [= <-] Hi%Hbelow. lia.
    + intros Hi%Hbelow [= <-]. lia.
    + apply Hinj.
  - rewrite map_size_insert_None by done. by rewrite Hsize.
Qed.

Lemma get_server_id_dom pm p :
  dom (PortMapper.ids (PortMapper.get_server_id p pm).2)
  = {[p]} ∪ dom (PortMapper.ids pm).
Proof.
  unfold PortMapper.get_server_id.
  destruct (PortMapper.ids pm !! p) as [i|] eqn:Hp; simpl.
  - apply elem_of_dom_2 in Hp. symmetry. apply subseteq_union_1_L.
    by apply singleton_subseteq_l.
  - apply dom_insert_L.
Qed.

Lemma translate_all_ports merged : ∀ pm m es pm' m',
  translate_all merged pm m = inr (es, pm', m') →
  port_mapper_ok pm →
  port_mapper_ok pm' ∧
  PortMapper.ids pm ⊆ PortMapper.ids pm' ∧
  dom (PortMapper.ids pm') = ports_of merged ∪ dom (PortMapper.ids pm) ∧
  (∀ k l e, merged !! k = Some l → es !! k = Some e →
     PortMapper.ids pm' !! tr_port (obj l) = Some (LogEvent.server_id e)).
Proof.
  induction merged as [|l0 merged IH]; intros pm m es pm' m'; simpl.
  - intros [= <- <- <-] Hok. split; [done|]. split; [done|].
    split; [unfold ports_of; simpl; by rewrite (left_id_L ∅ (∪))|].
    intros k l e Hk. by rewrite lookup_nil in Hk.
  - destruct (parse_log_line l0 pm m) as [f|[[e pm1] m1]] eqn:Hparse;
      simpl; [done|].
    destruct (translate_all merged pm1 m1) as [f|[[es' pm2] m2]] eqn:Hrest;
      simpl; [done|].
    intros [= <- <- <-] Hok.
    apply parse_log_line_inr in Hparse as (_ & _ & _ & _ & _ & Hid & _).
    pose proof (get_server_id_ok pm (tr_port (obj l0)) Hok) as Hok1.
    pose proof (get_server_id_mono pm (tr_port (obj l0))) as Hmono1.
    pose proof (get_server_id_dom pm (tr_port (obj l0))) as Hdom1.
    pose proof (get_server_id_lookup pm (tr_port (obj l0))) as Hlook1.
    rewrite Hid in Hok1, Hmono1, Hdom1, Hlook1. simpl in *.
    destruct (IH _ _ _ _ _ Hrest Hok1) as (Hok2 & Hmono2 & Hdom2 & Hlook2).
    split; [done|]. split; [by etrans|]. split.
    { rewrite Hdom2, Hdom1. unfold ports_of. simpl.
      rewrite !(assoc_L (∪)). f_equal. apply (comm_L (∪)). }
    intros [|k] l e' Hk He'; simpl in *.
    + injection Hk as <-. injection He' as <-.
      by eapply lookup_weaken.
    + by eapply Hlook2.
Qed.

(** X7: in the events of a run, two events have the same server id
    exactly when their lines report the same port, and every server id is
    below the number of different ports the lines report. *)
Theorem server_ids_follow_ports merged m es pm' m' :
  translate_all merged PortMapper.new m = inr (es, pm', m') →
  ∀ i j li lj ei ej,
    merged !! i = Some li → merged !! j = Some lj →
    es !! i = Some ei → es !! j = Some ej →
    (LogEvent.server_id ei = LogEvent.server_id ej ↔
     tr_port (obj li) = tr_port (obj lj)) ∧
    (LogEvent.server_id ei < size (ports_of merged))%nat.
Proof.
  intros Htr i j li lj ei ej Hi Hj Hei Hej.
  destruct (translate_all_ports _ _ _ _ _ _ Htr port_mapper_ok_new)
    as ((Hbelow & Hinj & Hsize) & _ & Hdom & Hlook).
  pose proof (Hlook i li ei Hi Hei) as Hli.
  pose proof (Hlook j lj ej Hj Hej) as Hlj.
  split.
  - split.
    + intros Heq. rewrite Heq in Hli. by eapply Hinj.
    + intros Heq. rewrite Heq in Hli. congruence.
  - apply Hbelow in Hli. rewrite <-Hsize, <-size_dom, Hdom in Hli.
    simpl in Hli. rewrite dom_empty_L, (right_id_L ∅ (∪)) in Hli. done.
Qed.

(** X8: a run in which every line is translated goes to its end when the
    lines report no more different ports than there are servers (log
    files): no update is out of range. *)
Theorem run_completes_when_ports_fit n_servers merged es pm m :
  translate_all merged PortMapper.new OplogIndexMapper.new
    = inr (es, pm, m) →
  (size (ports_of merged) ≤ n_servers)%nat →
  (∃ r', main_loop merged (initial_run n_servers) = (r', Exhausted)) ∧
  (∀ logfile,
     merge_log_streams logfile = (merged, Exhausted) →
     length logfile = n_servers →
     ∃ r', main logfile = (r', Exhausted)).
Proof.
  intros Htr Hfit.
  assert (∃ r', main_loop merged (initial_run n_servers) = (r', Exhausted))
    as [r' Hloop].
  { eapply (main_loop_exhausted merged (initial_run n_servers) es pm m);
      simpl; [done| |by rewrite length_replicate..].
    apply Forall_lookup. intros k e He.
    assert (k < length merged)%nat as Hk.
    { rewrite <-(translate_all_length _ _ _ _ _ _ Htr).
      by eapply lookup_lt_Some. }
    apply lookup_lt_is_Some_2 in Hk as [l Hl].
    destruct (server_ids_follow_ports _ _ _ _ _ Htr k k l l e e)
      as [_ Hlt]; try done. lia. }
  split; [by exists r'|].
  intros logfile Hmerge <-. exists r'. unfold main.
  by rewrite Hmerge, Hloop.
Qed.

End ServerIds.

Lemma server_ids_follow_ports_witness :
  ∃ es pm' m' ea eb,
    @translate_all sample [line_a; line_b] PortMapper.new OplogIndexMapper.new
      = inr (es, pm', m') ∧
    es !! 0%nat = Some ea ∧ es !! 1%nat = Some eb ∧
    LogEvent.server_id ea ≠ LogEvent.server_id eb ∧
    (LogEvent.server_id eb < 2)%nat.
Proof.
  destruct (@translate_all sample [line_a; line_b] PortMapper.new
              OplogIndexMapper.new) as [f|[[es pm'] m']] eqn:Htr;
    [by vm_compute in Htr|].
  pose proof (@server_ids_follow_ports sample _ _ _ _ _ Htr) as Hids.
  vm_compute in Htr. injection Htr as <- <- <-.
  eexists _, _, _, _, _. split; [reflexivity|].
  split; [reflexivity|]. split; [reflexivity|].
  destruct (Hids 0%nat 1%nat line_a line_b _ _ eq_refl eq_refl eq_refl eq_refl)
    as [Hiff _].
  destruct (Hids 1%nat 1%nat line_b line_b _ _ eq_refl eq_refl eq_refl eq_refl)
    as [_ Hlt].
  split.
  - intros Heq. apply Hiff in Heq. by vm_compute in Heq.
  - exact Hlt.
Defined.

Lemma run_completes_when_ports_fit_witness :
  ∃ r', @main sample [stream_a; stream_b] = (r', Exhausted).
Proof.
  destruct (@translate_all sample [line_a; line_b] PortMapper.new
              OplogIndexMapper.new) as [f|[[es pm'] m']] eqn:Htr;
    [by vm_compute in Htr|].
  destruct (@run_completes_when_ports_fit sample 2 [line_a; line_b] es pm' m'
              Htr) as [_ Hmain].
  - vm_compute. lia.
  - apply (Hmain [stream_a; stream_b]); [vm_compute; reflexivity|done].
Defined.

(** ** The port mapper over any sequence of calls *)

Section PortMapperCalls.

Lemma get_server_ids_lookup ports : ∀ pm (k : nat) (p : Z),
  ports !! k = Some p →
  (PortMapper.get_server_ids ports pm).1 !! k
  = Some (PortMapper.get_server_id p
            (PortMapper.get_server_ids (take k ports) pm).2).1.
Proof.
  induction ports as [|a ports IH]; intros pm k p Hk.
  { by rewrite lookup_nil in Hk. }
  destruct k as [|k]; simpl in *.
  - injection Hk as ->. destruct (PortMapper.get_server_id p pm) as [i pm1].
    by destruct (PortMapper.get_server_ids ports pm1).
  - specialize (IH (PortMapper.get_server_id a pm).2 k p Hk).
    destruct (PortMapper.get_server_id a pm) as [i pm1]. simpl in *.
    destruct (PortMapper.get_server_ids ports pm1) as [js pm2].
    destruct (PortMapper.get_server_ids (take k ports) pm1) as [js' pm2'].
    simpl in *. done.
Qed.

Lemma get_server_ids_ok ports : ∀ pm,
  port_mapper_ok pm →
  port_mapper_ok (PortMapper.get_server_ids ports pm).2 ∧
  dom (PortMapper.ids (PortMapper.get_server_ids ports pm).2)
  = list_to_set ports ∪ dom (PortMapper.ids pm).
Proof.
  induction ports as [|a ports IH]; intros pm Hok; simpl.
  { split; [done|]. by rewrite (left_id_L ∅ (∪)). }
  pose proof (get_server_id_ok pm a Hok) as Hok1.
  pose proof (get_server_id_dom pm a) as Hdom1.
  destruct (PortMapper.get_server_id a pm) as [i pm1]. simpl in *.
  destruct (IH pm1 Hok1) as [Hok2 Hdom2].
  destruct (PortMapper.get_server_ids ports pm1) as [js pm2]. simpl in *.
  split; [done|]. rewrite Hdom2, Hdom1.
  rewrite !(assoc_L (∪)). f_equal. apply (comm_L (∪)).
Qed.

(** The id a call returns is the one the mapper holds for the port at the
    end of the calls. *)
Lemma get_server_ids_final ports : ∀ pm (k : nat) (p : Z),
  ports !! k = Some p →
  ∃ i, (PortMapper.get_server_ids ports pm).1 !! k = Some i ∧
       PortMapper.ids (PortMapper.get_server_ids ports pm).2 !! p = Some i.
Proof.
  induction ports as [|a ports IH]; intros pm k p Hk.
  { by rewrite lookup_nil in Hk. }
  destruct k as [|k]; simpl in *.
  - injection Hk as ->.
    pose proof (get_server_id_lookup pm p) as Hlook.
    destruct (PortMapper.get_server_id p pm) as [i pm1]. simpl in *.
    pose proof (get_server_ids_mono ports pm1) as Hmono.
    destruct (PortMapper.get_server_ids ports pm1) as [js pm2]. simpl in *.
    exists i. split; [done|]. by eapply lookup_weaken.
  - specialize (IH (PortMapper.get_server_id a pm).2 k p Hk).
    destruct (PortMapper.get_server_id a pm) as [i pm1]. simpl in *.
    by destruct (PortMapper.get_server_ids ports pm1) as [js pm2].
Qed.

End PortMapperCalls.

(** C8: the port mapper is an enumeration of the ports in the order in
    which they are first seen.  The same port gets the same id: on the
    very next call, at any two calls of a sequence of calls, and after
    any number of calls in between.  In any sequence of calls to a new
    mapper, repeats included, a port seen for the first time gets as id
    the number of different ports seen before it; so K distinct ports,
    first seen in the order p1..pK, get the ids 0..K-1 in that order. *)
Theorem port_mapper_first_seen_order :
  (∀ pm p, PortMapper.get_server_id p (PortMapper.get_server_id p pm).2
           = ((PortMapper.get_server_id p pm).1,
              (PortMapper.get_server_id p pm).2)) ∧
  (∀ ports, NoDup ports →
     (PortMapper.get_server_ids ports PortMapper.new).1
     = seq 0 (length ports)) ∧
  (∀ ports later k p, NoDup ports → ports !! k = Some p →
     (PortMapper.get_server_id p
        (PortMapper.get_server_ids (ports ++ later) PortMapper.new).2).1 = k) ∧
  (∀ ports (k : nat) (p : Z),
     ports !! k = Some p → p ∉ take k ports →
     (PortMapper.get_server_ids ports PortMapper.new).1 !! k
     = Some (size (list_to_set (take k ports) : gset Z))) ∧
  (∀ ports pm (i j : nat) (p : Z),
     ports !! i = Some p → ports !! j = Some p →
     (PortMapper.get_server_ids ports pm).1 !! i
     = (PortMapper.get_server_ids ports pm).1 !! j) ∧
  (∀ ports pm, length (PortMapper.get_server_ids ports pm).1 = length ports).
Proof.
  split; [|split; [|split; [|split; [|split]]]].
  - intros pm p. apply get_server_id_known, get_server_id_lookup.
  - intros ports Hnd.
    by destruct (get_server_ids_fresh ports PortMapper.new Hnd) as (-> & _).
  - intros ports later k p Hnd Hk.
    destruct (get_server_ids_fresh ports PortMapper.new Hnd)
      as (_ & _ & Hlook); [done|].
    specialize (Hlook k p Hk). simpl in Hlook.
    rewrite get_server_ids_app. simpl.
    pose proof (get_server_ids_mono later
      (PortMapper.get_server_ids ports PortMapper.new).2) as Hmono.
    erewrite get_server_id_known; [done|].
    eapply lookup_weaken; [exact Hlook|exact Hmono].
  - intros ports k p Hk Hnew.
    rewrite (get_server_ids_lookup ports PortMapper.new k p Hk).
    destruct (get_server_ids_ok (take k ports) PortMapper.new
                port_mapper_ok_new) as [(_ & _ & Hsize) Hdom].
    simpl in Hdom. rewrite dom_empty_L, (right_id_L ∅ (∪)) in Hdom.
    unfold PortMapper.get_server_id.
    destruct (PortMapper.ids _ !! p) as [i|] eqn:Hp.
    + apply elem_of_dom_2 in Hp. rewrite Hdom in Hp.
      by apply elem_of_list_to_set in Hp.
    + simpl. by rewrite <-Hsize, <-size_dom, Hdom.
  - intros ports pm i j p Hi Hj.
    destruct (get_server_ids_final ports pm i p Hi) as (a & -> & Ha).
    destruct (get_server_ids_final ports pm j p Hj) as (b & -> & Hb).
    congruence.
  - intros ports. induction ports as [|a ports IH]; intros pm; simpl; [done|].
    destruct (PortMapper.get_server_id a pm) as [i pm1].
    specialize (IH pm1).
    destruct (PortMapper.get_server_ids ports pm1). simpl in *. by rewrite IH.
Qed.

Lemma port_mapper_first_seen_order_witness :
  (PortMapper.get_server_ids [27017; 27018; 27019] PortMapper.new).1
    = [0; 1; 2]%nat ∧
  (PortMapper.get_server_id 27018
     (PortMapper.get_server_ids ([27017; 27018; 27019] ++ [27019; 27017])
        PortMapper.new).2).1 = 1%nat ∧
  (PortMapper.get_server_ids [27017; 27018; 27017; 27019] PortMapper.new).1
    !! 3%nat = Some 2%nat ∧
  (PortMapper.get_server_ids [27017; 27018; 27017; 27019] PortMapper.new).1
    !! 2%nat
  = (PortMapper.get_server_ids [27017; 27018; 27017; 27019] PortMapper.new).1
    !! 0%nat.
Proof.
  destruct port_mapper_first_seen_order
    as (_ & Hseq & Hlater & Hfirst & Hsame & _).
  split; [|split; [|split]].
  - apply (Hseq [27017; 27018; 27019]).
    apply (bool_decide_unpack _); vm_compute; reflexivity.
  - apply (Hlater [27017; 27018; 27019] [27019; 27017] 1%nat 27018).
    + apply (bool_decide_unpack _); vm_compute; reflexivity.
    + reflexivity.
  - rewrite (Hfirst [27017; 27018; 27017; 27019] 3%nat 27019 eq_refl).
    + by vm_compute.
    + apply (bool_decide_unpack _); vm_compute; reflexivity.
  - apply (Hsame [27017; 27018; 27017; 27019] PortMapper.new
             2%nat 0%nat 27017); reflexivity.
Defined.
